(** * packagery: a shallow embedding of [packagery/__init__.py]

    The module packages a subset of a monorepo: it expands the initial paths,
    parses [requirements.txt] and [module_to_requirement.tsv], walks the import
    graph with [modulefinder] and renders the result.

    Python values are embedded as follows.
    - [str] is [string]; a line feed is the character with code 10.
    - a [pathlib.Path] is the list of its [parts]; an absolute POSIX path has
      the part ["/"] in front.
    - a [dict] / [OrderedDict] is an association list in insertion order.
    - a [set] is a [gset].
    - a raised exception is the [Raise] branch of [Result].
    - what the module gets from other libraries and from the file system
      (the csv reader, the requirements parser, [modulefinder], [stdlib_list],
      [Path.is_file], [Path.glob], [repr]) is a field of the record [Env].
    - [icontract] decorators that are enabled by default are embedded as the
      checks they perform; the ones guarded by [icontract.SLOW or READTHEDOCS]
      are switched off by default and are given as predicates only. *)

From Stdlib Require Import String Ascii DecimalString Arith Lia Bool Sorted.
From stdpp Require Import base gmap sets list strings.

Local Open Scope list_scope.
Local Open Scope stdpp_scope.

(** ** Exceptions *)

Inductive exn : Type :=
| ValueError (msg : string)
| KeyError (key : string)
| IndexError (msg : string)
| AssertionError (msg : string)
| NotImplementedError (msg : string)
| ViolationError  (* icontract.ViolationError; its message is not modelled *)
| ResolverError.  (* any exception raised inside [modulefinder], a [KeyError]
                     or [SyntaxError] of the library included *)

Inductive Result (A : Type) : Type :=
| Ok (a : A)
| Raise (e : exn).

Arguments Ok {A} a.
Arguments Raise {A} e.

Definition bind {A B : Type} (r : Result A) (k : A -> Result B) : Result B :=
  match r with
  | Ok a => k a
  | Raise e => Raise e
  end.

Notation "'let*' x ':=' r 'in' k" := (bind r (fun x => k))
  (at level 10, x name, r at level 100, k at level 200).

(** [for x in xs: body] where the body may raise. *)
Fixpoint for_each {A S : Type} (body : S -> A -> Result S) (xs : list A) (s : S)
  : Result S :=
  match xs with
  | [] => Ok s
  | x :: xs' => let* s' := body s x in for_each body xs' s'
  end.

(** ** Strings *)

Definition LF : string := String (ascii_of_nat 10) EmptyString.

Definition TAB : string := String (ascii_of_nat 9) EmptyString.

(** [s.endswith(suffix)]: some tail of [s] is [suffix]. *)
Fixpoint endswith (s suffix : string) : bool :=
  if String.eqb s suffix then true
  else match s with
       | EmptyString => false
       | String _ s' => endswith s' suffix
       end.

(** [str(n)] for a non-negative [int]. *)
Definition str_of_nat (n : nat) : string :=
  NilZero.string_of_uint (Nat.to_uint n).

(** [sep.join(parts)]. *)
Definition join (sep : string) (parts : list string) : string :=
  String.concat sep parts.

(** [c * n] for a one-character string. *)
Fixpoint str_repeat (c : string) (n : nat) : string :=
  match n with
  | O => EmptyString
  | S n' => c +:+ str_repeat c n'
  end.

(** [cell.ljust(width)]: pad with spaces on the right up to [width]. *)
Definition ljust (cell : string) (width : nat) : string :=
  cell +:+ str_repeat " " (width - String.length cell).

(** Python character classes used by [str.strip()] (code points below 256). *)
Definition is_space (c : ascii) : bool :=
  let n := nat_of_ascii c in
  ((9 <=? n) && (n <=? 13)) || ((28 <=? n) && (n <=? 32))
  || (n =? 133) || (n =? 160).

Fixpoint lstrip (s : string) : string :=
  match s with
  | EmptyString => EmptyString
  | String c s' => if is_space c then lstrip s' else s
  end.

Definition string_rev (s : string) : string :=
  string_of_list_ascii (rev (list_ascii_of_string s)).

Definition rstrip (s : string) : string := string_rev (lstrip (string_rev s)).

Definition strip (s : string) : string := lstrip (rstrip s).

(** The number of line feeds that end [s], and [s] without them. *)
Fixpoint leading_LF (cs : list ascii) : nat :=
  match cs with
  | c :: cs' => if Ascii.eqb c (ascii_of_nat 10) then S (leading_LF cs') else 0
  | [] => 0
  end.

Definition trailing_LF (s : string) : nat :=
  leading_LF (rev (list_ascii_of_string s)).

Definition without_trailing_LF (s : string) : string :=
  string_of_list_ascii
    (take (String.length s - trailing_LF s) (list_ascii_of_string s)).

(** ** Paths: [pathlib.PurePosixPath] as its [parts] *)

Abbreviation Path := (list string).

Definition is_absolute (p : Path) : bool :=
  match p with
  | root :: _ => String.eqb root "/"
  | [] => false
  end.

(** [a / b] *)
Definition joinpath (a b : Path) : Path :=
  if is_absolute b then b else a ++ b.

Fixpoint strip_prefix (root p : Path) : option Path :=
  match root, p with
  | [], _ => Some p
  | r :: root', x :: p' => if String.eqb r x then strip_prefix root' p' else None
  | _ :: _, [] => None
  end.

(** [p.relative_to(root)]; [None] stands for the [ValueError] of pathlib. *)
Definition relative_to (p root : Path) : option Path :=
  match root with
  | [] => if is_absolute p then None else Some p
  | _ => strip_prefix root p
  end.

(** [p.as_posix()] *)
Definition as_posix (p : Path) : string :=
  match p with
  | [] => "."
  | root :: rest =>
      if String.eqb root "/" then "/" +:+ join "/" rest else join "/" p
  end.

(** Order of paths ([sorted] compares the parts lexicographically). *)
Fixpoint path_leb (p q : Path) : bool :=
  match p, q with
  | [], _ => true
  | _ :: _, [] => false
  | x :: p', y :: q' =>
      match String.compare x y with
      | Lt => true
      | Gt => false
      | Eq => path_leb p' q'
      end
  end.

Fixpoint insert_sorted (p : Path) (l : list Path) : list Path :=
  match l with
  | [] => [p]
  | q :: l' => if path_leb q p then q :: insert_sorted p l' else p :: l
  end.

(** [sorted(paths)] (a stable sort). *)
Definition sorted (paths : list Path) : list Path :=
  foldr insert_sorted [] (rev paths).

(** ** Dictionaries in insertion order *)

Module OrderedDict.

Definition t (V : Type) : Type := list (string * V).

(** [d[key] = value]: an existing key keeps its position and gets the new
    value, a new key goes to the end. *)
Fixpoint setitem {V : Type} (key : string) (value : V) (d : t V) : t V :=
  match d with
  | [] => [(key, value)]
  | (k, v) :: d' =>
      if String.eqb k key then (k, value) :: d'
      else (k, v) :: setitem key value d'
  end.

(** [d.get(key)] *)
Fixpoint get {V : Type} (d : t V) (key : string) : option V :=
  match d with
  | [] => None
  | (k, v) :: d' => if String.eqb k key then Some v else get d' key
  end.

(** [key in d] *)
Definition contains {V : Type} (d : t V) (key : string) : bool :=
  match get d key with
  | Some _ => true
  | None => false
  end.

(** [d[key]] *)
Definition getitem {V : Type} (d : t V) (key : string) : Result V :=
  match get d key with
  | Some v => Ok v
  | None => Raise (KeyError key)
  end.

Definition keys {V : Type} (d : t V) : list string := map fst d.

Definition values {V : Type} (d : t V) : list V := map snd d.

End OrderedDict.

(** ** What the module takes from its libraries and from the file system *)

(** An item of [requirements_parser.parse(text)]: its [name] and [line]. *)
Record ParsedRequirement : Type := {
  req_name : option string;
  req_line : string
}.

(** The generator [requirements_parser.parse(text)] yields requirements until
    it is exhausted or raises [pkg_resources.RequirementParseError]. *)
Inductive parse_event : Type :=
| Yield (req : ParsedRequirement)
| RequirementParseError.

(** A [modulefinder.Module]: its [__file__]. *)
Record Module : Type := {
  module_file : option Path
}.

(** A [modulefinder.ModuleFinder] after [load_file]: the keys of [badmodules]
    and the items of [modules], both in iteration order. *)
Record ModuleFinder : Type := {
  badmodules : list string;
  modules : list (string * Module)
}.

Record Env : Type := {
  (** [pth.is_file()], [pth.is_dir()] and [pth.glob("**/*.py")] *)
  is_file : Path -> bool;
  is_dir : Path -> bool;
  glob_py : Path -> list Path;
  (** [requirements_parser.parse(text)] *)
  requirements_parser_parse : string -> list parse_event;
  (** [csv.reader(io.StringIO(text), dialect='excel-tab')] *)
  csv_reader : string -> list (list string);
  (** [repr(s)] of a [str] *)
  repr_str : string -> string;
  (** [ModuleFinder(path=[root_dir]).load_file(pathname)]; the first argument
      is [root_dir], the second [pathname]; [None] when the call raises. *)
  load_file : Path -> Path -> option ModuleFinder;
  (** [set(stdlib_list.stdlib_list())] *)
  _STDLIB_SET : gset string
}.

(** [repr(row)] of a list of [str]. *)
Definition repr_list (E : Env) (row : list string) : string :=
  "[" +:+ join ", " (map (repr_str E) row) +:+ "]".

(** ** resolve_initial_paths *)

(** The inner loop over [sorted(pth.glob("**/*.py"))]. *)
Definition add_subpaths (subpths : list Path) (acc : list Path * gset Path)
  : list Path * gset Path :=
  fold_left
    (fun '(result, seen_pths) subpth =>
       if bool_decide (subpth ∉ seen_pths)
       then (result ++ [subpth], {[subpth]} ∪ seen_pths)
       else (result, seen_pths))
    subpths acc.

(** One iteration of the loop over [initial_paths]. *)
Definition resolve_step (E : Env) (acc : list Path * gset Path) (pth : Path)
  : Result (list Path * gset Path) :=
  let '(result, seen_pths) := acc in
  if is_file E pth then Ok (result ++ [pth], {[pth]} ∪ seen_pths)
  else if is_dir E pth then Ok (add_subpaths (sorted (glob_py E pth)) acc)
  else Raise (NotImplementedError
                ("Unhandled path, not a directory nor a file: " +:+ as_posix pth)).

(** The body of [resolve_initial_paths]. *)
Definition resolve_initial_paths_body (E : Env) (initial_paths : list Path)
  : Result (list Path) :=
  match initial_paths with
  | [] => Ok []
  | _ =>
      let* acc := for_each (resolve_step E) initial_paths ([], ∅) in
      Ok (fst acc)
  end.

(** The third postcondition:
    [len(result) >= len(initial_paths) if initial_paths else result == []]. *)
Definition resolve_post_length (initial_paths result : list Path) : bool :=
  match initial_paths with
  | [] => match result with [] => true | _ => false end
  | _ => length initial_paths <=? length result
  end.

(** [resolve_initial_paths] with the contracts that are enabled by default. *)
Definition resolve_initial_paths (E : Env) (initial_paths : list Path)
  : Result (list Path) :=
  if negb (forallb is_absolute initial_paths)
  then Raise ViolationError
  else
    let* result := resolve_initial_paths_body E initial_paths in
    if negb (resolve_post_length initial_paths result)
    then Raise ViolationError
    else if negb (forallb is_absolute result)
    then Raise ViolationError
    else if negb (forallb (is_file E) result)
    then Raise ViolationError
    else Ok result.

(** ** Requirement *)

Module Requirement.

Record t : Type := {
  name : string;
  line : string
}.

(** The body of [__init__]. *)
Definition init (name line : string) : t :=
  {| name := name;
     line := if negb (endswith line LF) then line +:+ LF else line |}.

(** The two class invariants, checked when [__init__] returns. *)
Definition invariant_name (self : t) : bool :=
  String.eqb (strip (name self)) (name self).

Definition invariant_line (self : t) : bool := endswith (line self) LF.

(** [Requirement(name=..., line=...)] *)
Definition new (name line : string) : Result t :=
  let self := init name line in
  if negb (invariant_line self)
  then Raise ViolationError
  else if negb (invariant_name self)
  then Raise ViolationError
  else Ok self.

End Requirement.

(** ** parse_requirements *)

(** The loop over the parsed requirements, inside the [try]. *)
Fixpoint parse_requirements_loop (events : list parse_event) (filename : string)
    (result : OrderedDict.t Requirement.t)
  : Result (OrderedDict.t Requirement.t) :=
  match events with
  | [] => Ok result
  | RequirementParseError :: _ =>
      Raise (ValueError ("Invalid requirements in file " +:+ filename))
  | Yield req :: events' =>
      match req_name req with
      | None =>
          Raise (ValueError
            ("The name is missing in the requirement from the file "
               +:+ filename +:+ ": " +:+ req_line req
               +:+ " (did you specify the egg fragment?)"))
      | Some name =>
          let* requirement := Requirement.new name (req_line req) in
          parse_requirements_loop events' filename
            (OrderedDict.setitem (Requirement.name requirement) requirement result)
      end
  end.

Definition parse_requirements_body (E : Env) (text filename : string)
  : Result (OrderedDict.t Requirement.t) :=
  parse_requirements_loop (requirements_parser_parse E text) filename [].

(** The postcondition [all(val.name == key for key, val in result.items())]. *)
Definition parse_requirements_post (result : OrderedDict.t Requirement.t) : bool :=
  forallb (fun '(key, val) => String.eqb (Requirement.name val) key) result.

Definition parse_requirements (E : Env) (text filename : string)
  : Result (OrderedDict.t Requirement.t) :=
  let* result := parse_requirements_body E text filename in
  if negb (parse_requirements_post result)
  then Raise ViolationError
  else Ok result.

(** ** parse_module_to_requirement *)

(** The message of the [ValueError] for row number [i] (counted from 0), as the
    call to [format] builds it: the arguments are [i + 1], [len(row)],
    [filename] and [row], in this order. *)
Definition two_columns_message (E : Env) (i : nat) (row : list string)
    (filename : string) : string :=
  "Expected two columns, but got " +:+ str_of_nat (i + 1)
    +:+ " on line " +:+ str_of_nat (length row)
    +:+ " in " +:+ filename +:+ ": " +:+ repr_list E row.

(** The loop over [enumerate(csv.reader(...))]; a row of length two is
    unpacked into [module_name, requirement_name]. *)
Fixpoint parse_module_to_requirement_loop (E : Env) (rows : list (list string))
    (i : nat) (filename : string) (result : OrderedDict.t string)
  : Result (OrderedDict.t string) :=
  match rows with
  | [] => Ok result
  | row :: rows' =>
      match row with
      | [module_name; requirement_name] =>
          parse_module_to_requirement_loop E rows' (S i) filename
            (OrderedDict.setitem module_name requirement_name result)
      | _ => Raise (ValueError (two_columns_message E i row filename))
      end
  end.

Definition parse_module_to_requirement_body (E : Env) (text filename : string)
  : Result (OrderedDict.t string) :=
  parse_module_to_requirement_loop E (csv_reader E text) 0 filename [].

Definition parse_module_to_requirement (E : Env) (text filename : string)
  : Result (OrderedDict.t string) :=
  let* result := parse_module_to_requirement_body E text filename in
  if negb (forallb (fun val => negb (endswith val LF)) (OrderedDict.values result))
  then Raise ViolationError
  else if negb (forallb (fun key => negb (endswith key LF)) (OrderedDict.keys result))
  then Raise ViolationError
  else Ok result.

(** ** missing_requirements *)

(** One iteration of the loop; [seen] is read and handed on unchanged, as the
    body never adds to it. *)
Definition missing_requirements_step (requirements : OrderedDict.t Requirement.t)
    (acc : list string * gset string) (requirement_name : string)
  : list string * gset string :=
  let '(result, seen) := acc in
  if negb (OrderedDict.contains requirements requirement_name)
     && bool_decide (requirement_name ∉ seen)
  then (result ++ [requirement_name], seen)
  else (result, seen).

Definition missing_requirements (module_to_requirement : OrderedDict.t string)
    (requirements : OrderedDict.t Requirement.t) : list string :=
  fst (fold_left (missing_requirements_step requirements)
         (OrderedDict.values module_to_requirement) ([], ∅)).

(** The postcondition [len(result) == len(set(result))], enabled only under
    [icontract.SLOW or READTHEDOCS]. *)
Definition missing_requirements_post (result : list string) : bool :=
  length result =? size (list_to_set result : gset string).

(** ** UnresolvedModule and Package *)

Module UnresolvedModule.

Record t : Type := {
  name : string;
  imported_from : Path
}.

End UnresolvedModule.

Module Package.

Record t : Type := {
  requirements : OrderedDict.t Requirement.t;
  rel_paths : gset Path;
  unresolved_modules : list UnresolvedModule.t
}.

Definition init : t :=
  {| requirements := []; rel_paths := ∅; unresolved_modules := [] |}.

End Package.

(** ** collect_dependency_graph *)

(** The local variables of the [while] loop. The head of [stack] is the last
    element of the Python list: [stack.pop()] takes the head and
    [stack.append(x)] conses [x]. *)
Record LoopState : Type := {
  package : Package.t;
  stack : list Path;
  unresolved_module_set : gset string
}.

(** The body of [for module_name in mfder.badmodules]. *)
Definition visit_badmodule (E : Env) (requirements : OrderedDict.t Requirement.t)
    (module_to_requirement : OrderedDict.t string) (rel_pth : Path)
    (acc : Package.t * gset string) (module_name : string)
  : Result (Package.t * gset string) :=
  let '(package, unresolved_module_set) := acc in
  if OrderedDict.contains module_to_requirement module_name then
    let* req_name := OrderedDict.getitem module_to_requirement module_name in
    if negb (OrderedDict.contains (Package.requirements package) req_name) then
      let* req := OrderedDict.getitem requirements req_name in
      Ok ({| Package.requirements :=
               OrderedDict.setitem req_name req (Package.requirements package);
             Package.rel_paths := Package.rel_paths package;
             Package.unresolved_modules := Package.unresolved_modules package |},
          unresolved_module_set)
    else Ok acc
  else if bool_decide (module_name ∈ _STDLIB_SET E) then Ok acc
  else if bool_decide (module_name ∉ unresolved_module_set) then
    Ok ({| Package.requirements := Package.requirements package;
           Package.rel_paths := Package.rel_paths package;
           Package.unresolved_modules :=
             Package.unresolved_modules package
               ++ [{| UnresolvedModule.name := module_name;
                      UnresolvedModule.imported_from := rel_pth |}] |},
        {[module_name]} ∪ unresolved_module_set)
  else Ok acc.

(** [repr(module)] of a [modulefinder.Module] without [__file__] and
    [__path__]. *)
Definition repr_module (E : Env) (module_name : string) : string :=
  "Module(" +:+ repr_str E module_name +:+ ")".

(** The body of [for module_name, module in mfder.modules.items()]. *)
Definition visit_module (E : Env) (root_dir rel_pth : Path)
    (acc : Package.t * list Path) (item : string * Module)
  : Result (Package.t * list Path) :=
  let '(package, stack) := acc in
  let '(module_name, module) := item in
  match module_file module with
  | None =>
      if bool_decide (module_name ∉ _STDLIB_SET E) then
        Raise (AssertionError
          ("Expected the module found through modulefiner to have a __file__, but it is None: "
             +:+ repr_module E module_name))
      else Ok acc
  | Some file =>
      match relative_to file root_dir with
      | None =>
          Raise (ValueError
            (repr_str E (as_posix file) +:+ " does not start with "
               +:+ repr_str E (as_posix root_dir)))
      | Some module_rel_pth =>
          Ok ({| Package.requirements := Package.requirements package;
                 Package.rel_paths := {[rel_pth]} ∪ Package.rel_paths package;
                 Package.unresolved_modules := Package.unresolved_modules package |},
              module_rel_pth :: stack)
      end
  end.

Definition only_one_dependency : string :=
  "Expected to add only one dependency at a step.".

(** One iteration of the [while] loop, entered with [rel_pth = stack.pop()]
    and [rest] the stack after the pop. An exception that [load_file] raises
    is not caught by the loop; whatever its class in Python, it is
    [ResolverError] here, so the other constructors of [exn] are raised by
    the statements of the loop only. *)
Definition loop_iteration (E : Env) (root_dir : Path)
    (requirements : OrderedDict.t Requirement.t)
    (module_to_requirement : OrderedDict.t string)
    (st : LoopState) (rel_pth : Path) (rest : list Path) : Result LoopState :=
  if is_absolute rel_pth
  then Raise (AssertionError "All visited paths must be relative.")
  else
    let len_rel_paths_before := size (Package.rel_paths (package st)) in
    if bool_decide (rel_pth ∈ Package.rel_paths (package st)) then
      (* continue *)
      Ok {| package := package st; stack := rest;
            unresolved_module_set := unresolved_module_set st |}
    else
      let pth := joinpath root_dir rel_pth in
      let* mfder := match load_file E root_dir pth with
                    | Some mfder => Ok mfder
                    | None => Raise ResolverError
                    end in
      let* acc1 :=
        for_each (visit_badmodule E requirements module_to_requirement rel_pth)
          (badmodules mfder) (package st, unresolved_module_set st) in
      let* acc2 :=
        for_each (visit_module E root_dir rel_pth) (modules mfder) (fst acc1, rest) in
      if negb (len_rel_paths_before + 1 =? size (Package.rel_paths (fst acc2)))
      then Raise (AssertionError only_one_dependency)
      else Ok {| package := fst acc2; stack := snd acc2;
                 unresolved_module_set := snd acc1 |}.

(** How a run of the loop ends within a given number of iterations. *)
Inductive Outcome : Type :=
| Returned (package : Package.t)
| Raised (e : exn)
| OutOfFuel.

(** [while stack: ...], at most [fuel] tests of the loop condition. *)
Fixpoint while_stack (E : Env) (root_dir : Path)
    (requirements : OrderedDict.t Requirement.t)
    (module_to_requirement : OrderedDict.t string)
    (fuel : nat) (st : LoopState) : Outcome :=
  match fuel with
  | O => OutOfFuel
  | S fuel' =>
      match stack st with
      | [] => Returned (package st)
      | rel_pth :: rest =>
          match loop_iteration E root_dir requirements module_to_requirement
                  st rel_pth rest with
          | Raise e => Raised e
          | Ok st' =>
              while_stack E root_dir requirements module_to_requirement fuel' st'
          end
      end
  end.

(** The state before the loop: [stack.extend(rel_paths)] on an empty stack. *)
Definition initial_state (rel_paths : list Path) : LoopState :=
  {| package := Package.init; stack := rev rel_paths;
     unresolved_module_set := ∅ |}.

(** [collect_dependency_graph] with the precondition that is enabled by
    default. *)
Definition collect_dependency_graph (E : Env) (fuel : nat) (root_dir : Path)
    (rel_paths : list Path) (requirements : OrderedDict.t Requirement.t)
    (module_to_requirement : OrderedDict.t string) : Outcome :=
  if negb (forallb (fun rel_pth => negb (is_absolute rel_pth)) rel_paths)
  then Raised ViolationError
  else while_stack E root_dir requirements module_to_requirement fuel
         (initial_state rel_paths).

(** The precondition that is enabled only under [icontract.SLOW]:
    [missing_requirements(module_to_requirement, requirements) == []]. *)
Definition no_missing_requirements (module_to_requirement : OrderedDict.t string)
    (requirements : OrderedDict.t Requirement.t) : bool :=
  match missing_requirements module_to_requirement requirements with
  | [] => true
  | _ => false
  end.

(** *** Observations of a run, used to state properties of the traversal *)

(** The iteration for [rel_pth] gets past the revisit guard. *)
Definition is_visit (st : LoopState) (rel_pth : Path) : bool :=
  negb (is_absolute rel_pth)
  && bool_decide (rel_pth ∉ Package.rel_paths (package st)).

(** The paths the module finder is run on, in the order of the run. *)
Fixpoint visit_order (E : Env) (root_dir : Path)
    (requirements : OrderedDict.t Requirement.t)
    (module_to_requirement : OrderedDict.t string)
    (fuel : nat) (st : LoopState) : list Path :=
  match fuel with
  | O => []
  | S fuel' =>
      match stack st with
      | [] => []
      | rel_pth :: rest =>
          (if is_visit st rel_pth then [rel_pth] else [])
          ++ match loop_iteration E root_dir requirements module_to_requirement
                     st rel_pth rest with
             | Raise _ => []
             | Ok st' =>
                 visit_order E root_dir requirements module_to_requirement fuel' st'
             end
      end
  end.

(** The module finder run started on [rel_pth] lists [module_name] in
    [badmodules], and the loop over [badmodules] takes its last branch for
    it: the name is neither a key of [module_to_requirement] nor in
    [_STDLIB_SET]. The run lists the failed imports of [rel_pth] and of every
    module it loads while scanning it, so the file [rel_pth] itself need not
    import [module_name]. *)
Definition lists_unclassified (E : Env) (root_dir : Path)
    (module_to_requirement : OrderedDict.t string)
    (rel_pth : Path) (module_name : string) : Prop :=
  exists mfder,
    load_file E root_dir (joinpath root_dir rel_pth) = Some mfder
    /\ module_name ∈ badmodules mfder
    /\ OrderedDict.contains module_to_requirement module_name = false
    /\ module_name ∉ _STDLIB_SET E.

(** ** _format_table *)

(** [l[i]] *)
Definition list_getitem {A : Type} (l : list A) (i : nat) : Result A :=
  match l !! i with
  | Some x => Ok x
  | None => Raise (IndexError "list index out of range")
  end.

Fixpoint map_result {A B : Type} (f : A -> Result B) (l : list A)
  : Result (list B) :=
  match l with
  | [] => Ok []
  | x :: l' =>
      let* y := f x in
      let* ys := map_result f l' in
      Ok (y :: ys)
  end.

(** [max(len(row[i]) for row in table)] *)
Definition col_width (table : list (list string)) (i : nat) : Result nat :=
  let* lens := map_result
                 (fun row => let* cell := list_getitem row i in
                             Ok (String.length cell)) table in
  match lens with
  | [] => Raise (ValueError "max() arg is an empty sequence")
  | n :: lens' => Ok (foldr Nat.max n lens')
  end.

Definition format_row (col_widths : list nat) (row : list string) : string :=
  join " | " (map (fun '(cell, width) => ljust cell width) (zip row col_widths)).

Definition format_border (col_widths : list nat) : string :=
  join "-+-" (map (str_repeat "-") col_widths).

(** The loop over [enumerate(table)], started at index [i]. *)
Fixpoint format_lines (i : nat) (rows : list (list string)) (col_widths : list nat)
  : list string :=
  match rows with
  | [] => []
  | row :: rows' =>
      format_row col_widths row
        :: (if i =? 0 then [format_border col_widths] else [])
        ++ format_lines (S i) rows' col_widths
  end.

Definition _format_table_body (table : list (list string)) : Result string :=
  let* first := list_getitem table 0 in
  let cols := length first in
  let* col_widths := map_result (col_width table) (seq 0 cols) in
  Ok (join LF (format_lines 0 table col_widths)).

(** The precondition
    [not table or all(len(row) == len(table[0]) for row in table)]. *)
Definition format_table_pre (table : list (list string)) : bool :=
  match table with
  | [] => true
  | first :: _ => forallb (fun row => length row =? length first) table
  end.

(** The postcondition [result == '' if not table else True]. *)
Definition format_table_post_empty (table : list (list string)) (result : string)
  : bool :=
  match table with
  | [] => String.eqb result EmptyString
  | _ => true
  end.

(** [_format_table] with its contracts. *)
Definition _format_table (table : list (list string)) : Result string :=
  if negb (format_table_pre table) then Raise ViolationError
  else
    let* result := _format_table_body table in
    if negb (format_table_post_empty table result) then Raise ViolationError
    else if endswith result LF then Raise ViolationError
    else Ok result.

(** ** Stand-ins for the libraries, used by the examples *)

Module Fixture.

(** [repr] of a [str] that holds no quote, backslash or control character. *)
Definition repr_plain (s : string) : string := "'" +:+ s +:+ "'".

(** Split [s] at every occurrence of the character [sep]. *)
Fixpoint split_on (sep : ascii) (s : string) : list string :=
  match s with
  | EmptyString => [EmptyString]
  | String c s' =>
      if Ascii.eqb c sep then EmptyString :: split_on sep s'
      else match split_on sep s' with
           | [] => [String c EmptyString]
           | piece :: pieces => String c piece :: pieces
           end
  end.

(** [text.splitlines()] for text whose only line break is the line feed. *)
Definition splitlines (text : string) : list string :=
  match text with
  | EmptyString => []
  | _ =>
      let pieces := split_on (ascii_of_nat 10) text in
      if endswith text LF then removelast pieces else pieces
  end.

(** The excel-tab reader on text without quotes and carriage returns: one row
    per line, an empty line is the empty row. *)
Definition tsv_reader (text : string) : list (list string) :=
  map (fun l => match l with
                | EmptyString => []
                | _ => split_on (ascii_of_nat 9) l
                end)
      (splitlines text).

Definition is_name_end (c : ascii) : bool :=
  existsb (Ascii.eqb c) (list_ascii_of_string " =<>!~;[#").

Fixpoint requirement_name (l : string) : string :=
  match l with
  | EmptyString => EmptyString
  | String c l' => if is_name_end c then EmptyString else String c (requirement_name l')
  end.

Definition is_comment (l : string) : bool :=
  match l with
  | String c _ => Ascii.eqb c "#"%char
  | EmptyString => false
  end.

(** The requirements parser on lines of the form [name] or
    [name <specifier>]: blank lines and comment lines are skipped, every other
    line is stripped and yields its leading name. *)
Fixpoint pins_of_lines (ls : list string) : list parse_event :=
  match ls with
  | [] => []
  | l :: ls' =>
      let l := strip l in
      match l with
      | EmptyString => pins_of_lines ls'
      | _ =>
          if is_comment l then pins_of_lines ls'
          else match requirement_name l with
               | EmptyString => [RequirementParseError]
               | name => Yield {| req_name := Some name; req_line := l |}
                           :: pins_of_lines ls'
               end
      end
  end.

Definition pins_parse (text : string) : list parse_event :=
  pins_of_lines (splitlines text).

(** A source file of a code base: the name of its module, the names that end
    in [badmodules], and the modules it imports with their files relative to
    the root ([None] for a module without [__file__]). *)
Record source_file : Type := {
  own_name : string;
  bad_imports : list string;
  good_imports : list (string * option Path)
}.

(** A code base: its source files by their paths relative to the root. *)
Definition codebase : Type := list (Path * source_file).

Fixpoint find_file (files : codebase) (rel_pth : Path) : option source_file :=
  match files with
  | [] => None
  | (p, src) :: files' =>
      if bool_decide (p = rel_pth) then Some src else find_file files' rel_pth
  end.

(** [load_file] over a code base: like [modulefinder], it enters the module
    of the loaded file with [__file__ = pathname], then the imported
    modules. Unlike [modulefinder] it does not scan the imported modules in
    turn; the finder of [Transitive] below does. *)
Definition load_from (files : codebase) (root_dir pathname : Path)
  : option ModuleFinder :=
  match relative_to pathname root_dir with
  | None => None
  | Some rel_pth =>
      match find_file files rel_pth with
      | Some src =>
          Some {| badmodules := bad_imports src;
                  modules :=
                    (own_name src, {| module_file := Some pathname |})
                      :: map (fun '(module_name, file) =>
                                (module_name,
                                 {| module_file := joinpath root_dir <$> file |}))
                           (good_imports src) |}
      | None => None
      end
  end.

(** An environment from a list of files, a list of directories with the
    Python files below each, a code base and the standard library names. *)
Definition env (files : list Path) (dirs : list (Path * list Path))
    (code : codebase) (stdlib : list string) : Env :=
  {| is_file := fun pth => bool_decide (pth ∈ files);
     is_dir := fun pth => bool_decide (pth ∈ map fst dirs);
     glob_py := fun pth =>
       match list_find (fun d => fst d = pth) dirs with
       | Some (_, d) => snd d
       | None => []
       end;
     requirements_parser_parse := pins_parse;
     csv_reader := tsv_reader;
     repr_str := repr_plain;
     load_file := load_from code;
     _STDLIB_SET := list_to_set stdlib |}.

End Fixture.

(** ** Observations used to state the properties *)

(** The requirements a parse yields before it ends or raises. *)
Fixpoint yielded (events : list parse_event) : list ParsedRequirement :=
  match events with
  | Yield req :: events' => req :: yielded events'
  | _ => []
  end.

(** The lines declared for [name], in the order of the text. *)
Definition lines_named (name : string) (reqs : list ParsedRequirement)
  : list string :=
  req_line <$> filter (fun req => req_name req = Some name) reqs.

(** The elements of a list in the order of their first occurrence. *)
Fixpoint first_occurrences (names : list string) : list string :=
  match names with
  | [] => []
  | n :: names' => n :: filter (fun m => m <> n) (first_occurrences names')
  end.

(** No file is passed directly after it was passed directly before or after a
    directory whose expansion holds it. *)
Definition no_file_passed_again (E : Env) (initial_paths : list Path) : Prop :=
  forall before pth after,
    initial_paths = before ++ pth :: after ->
    is_file E pth = true ->
    (pth ∉ before)
    /\ (forall dir, dir ∈ before -> is_file E dir = false -> is_dir E dir = true ->
          pth ∉ glob_py E dir).

(** ** Example code bases *)

Module Example.

Definition dir_pkg : Path := ["/"; "repo"; "pkg"].
Definition file_a : Path := ["/"; "repo"; "pkg"; "a.py"].
Definition file_b : Path := ["/"; "repo"; "pkg"; "b.py"].
Definition file_main : Path := ["/"; "repo"; "main.py"].
Definition dir_empty : Path := ["/"; "repo"; "docs"].

Definition root_dir : Path := ["/"; "repo"].
Definition main_py : Path := ["main.py"].
Definition a_py : Path := ["pkg"; "a.py"].
Definition b_py : Path := ["pkg"; "b.py"].

(** [main.py] imports [pkg.a]; [pkg/a.py] and [pkg/b.py] import each other.
    All three import the unknown module [missing], [main.py] also imports
    [PIL.Image] and [os.path], and [pkg/b.py] the unknown module [other]. *)
Definition code : Fixture.codebase :=
  [(main_py, {| Fixture.own_name := "main";
                Fixture.bad_imports := ["missing"; "PIL.Image"; "os.path"];
                Fixture.good_imports := [("pkg.a", Some a_py); ("sys", None)] |});
   (a_py, {| Fixture.own_name := "a";
             Fixture.bad_imports := ["missing"];
             Fixture.good_imports := [("pkg.b", Some b_py)] |});
   (b_py, {| Fixture.own_name := "b";
             Fixture.bad_imports := ["missing"; "other"];
             Fixture.good_imports := [("pkg.a", Some a_py)] |})].

(** [/repo/main.py], [/repo/pkg/a.py], [/repo/pkg/b.py] and the directory
    [/repo/docs] without Python files. *)
Definition tree : Env :=
  Fixture.env [file_a; file_b; file_main]
    [(dir_pkg, [file_b; file_a]); (dir_empty, [])] code ["os.path"; "sys"].

Definition requirements : OrderedDict.t Requirement.t :=
  [("pillow", Requirement.init "pillow" "pillow==5.2.0")].

Definition module_to_requirement : OrderedDict.t string :=
  [("PIL.Image", "pillow")].

End Example.

(** The module has a [__file__]. *)
Definition has_file (item : string * Module) : bool :=
  match module_file item.2 with
  | Some _ => true
  | None => false
  end.

(** What [modulefinder.ModuleFinder.load_file] does before it scans the code
    ([load_module]: [m = self.add_module(fqname)], then
    [m.__file__ = pathname]): the module of the loaded file is in [modules],
    and its [__file__] is the pathname that was loaded. *)
Definition loads_own_module (E : Env) (root_dir : Path) : Prop :=
  forall pathname mfder,
    load_file E root_dir pathname = Some mfder ->
    exists module_name,
      (module_name, {| module_file := Some pathname |}) ∈ modules mfder.

(** A finite code base: [files] holds every path, relative to [root_dir],
    that the module finder reports for a file of [files]. *)
Definition closed_codebase (E : Env) (root_dir : Path) (files : list Path) : Prop :=
  forall rel_pth mfder module_name file module_rel_pth,
    rel_pth ∈ files ->
    load_file E root_dir (joinpath root_dir rel_pth) = Some mfder ->
    (module_name, {| module_file := Some file |}) ∈ modules mfder ->
    relative_to file root_dir = Some module_rel_pth ->
    module_rel_pth ∈ files.

(** The entry appended for the module [module_name] imported by [rel_pth]. *)
Definition unresolved_from (rel_pth : Path) (module_name : string)
  : UnresolvedModule.t :=
  {| UnresolvedModule.name := module_name;
     UnresolvedModule.imported_from := rel_pth |}.

(** In the visits [log], the file [imported_from u] is the first one whose
    module finder run lists the module [name u] without the module being
    classified. *)
Definition first_listing (E : Env) (root_dir : Path)
    (module_to_requirement : OrderedDict.t string) (log : list Path)
    (u : UnresolvedModule.t) : Prop :=
  exists before after,
    log = before ++ UnresolvedModule.imported_from u :: after
    /\ lists_unclassified E root_dir module_to_requirement
         (UnresolvedModule.imported_from u) (UnresolvedModule.name u)
    /\ forall p, p ∈ before ->
         ~ lists_unclassified E root_dir module_to_requirement p
             (UnresolvedModule.name u).

(** ** Invariants used in the proofs *)

(** [seen_pths] holds the paths of [result], which are pairwise distinct. *)
Definition seen_is_result (acc : list Path * gset Path) : Prop :=
  (forall x, x ∈ acc.2 <-> x ∈ acc.1) /\ NoDup acc.1.

(** Where the paths of [result] come from, [done] being the initial paths
    handled so far. *)
Definition comes_from (E : Env) (done : list Path) (x : Path) : Prop :=
  (x ∈ done /\ is_file E x = true)
  \/ exists dir, dir ∈ done /\ is_file E dir = false /\ is_dir E dir = true
       /\ x ∈ glob_py E dir.

(** The invariant of the [while] loop, [log] being the visits so far. *)
Record traversal_inv (E : Env) (root_dir : Path)
    (module_to_requirement : OrderedDict.t string)
    (log : list Path) (st : LoopState) : Prop := {
  inv_set : forall n,
    n ∈ unresolved_module_set st
    <-> n ∈ (UnresolvedModule.name <$> Package.unresolved_modules (package st));
  inv_nodup :
    NoDup (UnresolvedModule.name <$> Package.unresolved_modules (package st));
  inv_first : forall u,
    u ∈ Package.unresolved_modules (package st) ->
    first_listing E root_dir module_to_requirement log u;
  inv_all : forall p n,
    p ∈ log ->
    lists_unclassified E root_dir module_to_requirement p n ->
    n ∈ unresolved_module_set st
}.

(** The files of the code base that were not visited yet. *)
Definition unvisited (files : list Path) (visited : gset Path) : list Path :=
  filter (fun p => p ∉ visited) files.

(** An event of the parse that the loop passes: a requirement with a name
    that carries no surrounding whitespace. *)
Definition well_named (event : parse_event) : Prop :=
  match event with
  | Yield req => exists name, req_name req = Some name /\ strip name = name
  | RequirementParseError => False
  end.


(** The files reached from the initial paths: an initial path, or a file,
    relative to the root, that the module finder reports for a reached
    file. *)
Inductive reachable (E : Env) (root_dir : Path) (rel_paths : list Path)
  : Path -> Prop :=
| reachable_initial (p : Path) :
    p ∈ rel_paths -> reachable E root_dir rel_paths p
| reachable_import (p : Path) (mfder : ModuleFinder) (module_name : string)
    (file module_rel_pth : Path) :
    reachable E root_dir rel_paths p ->
    load_file E root_dir (joinpath root_dir p) = Some mfder ->
    (module_name, {| module_file := Some file |}) ∈ modules mfder ->
    relative_to file root_dir = Some module_rel_pth ->
    reachable E root_dir rel_paths module_rel_pth.

(** The module finder run started on [p] lists in [badmodules] a module that
    the module map gives to the requirement [req_name]. *)
Definition imports_requirement (E : Env) (root_dir : Path)
    (module_to_requirement : OrderedDict.t string)
    (p : Path) (req_name : string) : Prop :=
  exists mfder module_name,
    load_file E root_dir (joinpath root_dir p) = Some mfder
    /\ module_name ∈ badmodules mfder
    /\ OrderedDict.get module_to_requirement module_name = Some req_name.

(** The invariant of the [while] loop on the paths and the requirements,
    [log] being the visits so far and [seeds] the initial paths. *)
Record closure_inv (E : Env) (root_dir : Path)
    (requirements : OrderedDict.t Requirement.t)
    (module_to_requirement : OrderedDict.t string)
    (seeds log : list Path) (st : LoopState) : Prop := {
  ci_paths : forall p, p ∈ Package.rel_paths (package st) <-> p ∈ log;
  ci_nodup : NoDup log;
  ci_relative : forall p, p ∈ log -> is_absolute p = false;
  ci_reach : forall p,
    p ∈ log \/ p ∈ stack st -> reachable E root_dir seeds p;
  ci_seeds : forall p, p ∈ seeds -> p ∈ log \/ p ∈ stack st;
  ci_closed : forall p mfder module_name file,
    p ∈ log ->
    load_file E root_dir (joinpath root_dir p) = Some mfder ->
    (module_name, {| module_file := Some file |}) ∈ modules mfder ->
    exists r, relative_to file root_dir = Some r /\ (r ∈ log \/ r ∈ stack st);
  ci_req_sound : forall k r,
    OrderedDict.get (Package.requirements (package st)) k = Some r ->
    OrderedDict.get requirements k = Some r
    /\ exists p, p ∈ log /\ imports_requirement E root_dir module_to_requirement p k;
  ci_req_complete : forall p k,
    p ∈ log ->
    imports_requirement E root_dir module_to_requirement p k ->
    is_Some (OrderedDict.get (Package.requirements (package st)) k)
}.

(** [col_widths] holds, for every column of [table], the greatest length of
    its cells. *)
Definition column_maxima (table : list (list string)) (col_widths : list nat)
  : Prop :=
  forall i w,
    col_widths !! i = Some w ->
    (forall row cell, row ∈ table -> row !! i = Some cell ->
       String.length cell <= w)
    /\ exists row cell,
         row ∈ table /\ row !! i = Some cell /\ String.length cell = w.

(** ** Rendering: to_mapping, _output_verbose and output *)

(** [sorted(items)] and [sorted(items, key=...)], [leb x y] standing for
    [not (key(y) < key(x))]: a stable sort. *)
Fixpoint insert_by {A : Type} (leb : A -> A -> bool) (x : A) (l : list A) : list A :=
  match l with
  | [] => [x]
  | y :: l' => if leb y x then y :: insert_by leb x l' else x :: l
  end.

Definition sorted_by {A : Type} (leb : A -> A -> bool) (l : list A) : list A :=
  foldr (insert_by leb) [] (rev l).

(** What [to_mapping] returns: strings, lists and ordered mappings. *)
#[local] Unset Elimination Schemes.

Inductive value : Type :=
| VStr (s : string)
| VList (items : list value)
| VMap (items : list (string * value)).

#[local] Set Elimination Schemes.

(** [Requirement.to_mapping] *)
Definition Requirement_to_mapping (self : Requirement.t) : value :=
  VMap [("name", VStr (Requirement.name self));
        ("line", VStr (Requirement.line self))].

(** [UnresolvedModule.to_mapping] *)
Definition UnresolvedModule_to_mapping (self : UnresolvedModule.t) : value :=
  VMap [("name", VStr (UnresolvedModule.name self));
        ("imported_from", VStr (as_posix (UnresolvedModule.imported_from self)))].

(** The order of the items of a dictionary: by key (the keys of a dictionary
    are distinct, so the values are never compared). *)
Definition key_leb {V : Type} (a b : string * V) : bool := String.leb a.1 b.1.

(** [Package.to_mapping]; the set [rel_paths] is iterated as its list of
    elements. *)
Definition Package_to_mapping (self : Package.t) : value :=
  VMap [("requirements",
         VMap ((fun kr => (kr.1, Requirement_to_mapping kr.2))
                 <$> sorted_by key_leb (Package.requirements self)));
        ("rel_paths",
         VList (VStr <$> sorted_by String.leb
                           (as_posix <$> elements (Package.rel_paths self))));
        ("unresolved_modules",
         VList (UnresolvedModule_to_mapping <$> Package.unresolved_modules self))].

(** The table of the block of external dependencies. *)
Definition requirements_table (E : Env) (package : Package.t) : list (list string) :=
  ["Package name"; "Requirement spec"]
    :: ((fun kr => [Requirement.name kr.2; repr_str E (strip (Requirement.line kr.2))])
          <$> sorted_by key_leb (Package.requirements package)).

(** The table of the block of unresolved dependencies. *)
Definition unresolved_table (package : Package.t) : list (list string) :=
  ["Module"; "Imported from"]
    :: ((fun m => [UnresolvedModule.name m;
                   as_posix (UnresolvedModule.imported_from m)])
          <$> sorted_by (fun a b => String.leb (UnresolvedModule.name a)
                                      (UnresolvedModule.name b))
                (Package.unresolved_modules package)).

(** The block of local dependencies. *)
Definition local_block (package : Package.t) : list string :=
  "Local dependencies:"
    :: (as_posix <$> sorted (elements (Package.rel_paths package))).

(** [_output_verbose]: the text written to [out]; nothing is written when a
    table cannot be formatted, as both writes come last. *)
Definition _output_verbose (E : Env) (package : Package.t) : Result string :=
  let* blocks1 :=
    match Package.requirements package with
    | [] => Ok []
    | _ =>
        let* table := _format_table (requirements_table E package) in
        Ok ["External dependencies:" +:+ LF +:+ table]
    end in
  let blocks2 :=
    if bool_decide (Package.rel_paths package = ∅) then blocks1
    else blocks1 ++ [join LF (local_block package)] in
  let* blocks3 :=
    match Package.unresolved_modules package with
    | [] => Ok blocks2
    | _ =>
        let* table := _format_table (unresolved_table package) in
        Ok (blocks2 ++ ["Unresolved dependencies:" +:+ LF +:+ table])
    end in
  Ok (join (LF +:+ LF) blocks3 +:+ LF).

Definition FORMATS : list string := ["verbose"; "json"].

(** [output]; [a_format] is [None] for Python's [None], and [json_dump] stands
    for [json.dump(obj=..., fp=out, indent=2)]. The result is the text
    written to [out]. *)
Definition output (E : Env) (json_dump : value -> string) (package : Package.t)
    (a_format : option string) : Result string :=
  if negb (match a_format with
           | Some f => bool_decide (f ∈ FORMATS)
           | None => true
           end)
  then Raise ViolationError
  else
    match a_format with
    | Some f =>
        if String.eqb f "verbose" then _output_verbose E package
        else if String.eqb f "json" then Ok (json_dump (Package_to_mapping package))
        else Raise (ValueError ("Unexpected format: " +:+ repr_str E f))
    | None => Raise (ValueError "Unexpected format: None")
    end.

(** [bool(l)] of a list. *)
Definition nonempty {A : Type} (l : list A) : bool :=
  match l with
  | [] => false
  | _ :: _ => true
  end.

(** ** A module finder that follows the imports *)

Module Transitive.

(** What a scan has found: the names of [badmodules] and the entries of
    [modules], a file being given relative to the root. *)
Definition scan_state : Type := list string * list (string * option Path).

(** [_add_badmodule]: a name is entered once. *)
Definition add_bad (st : scan_state) (name : string) : scan_state :=
  if bool_decide (name ∈ st.1) then st else (st.1 ++ [name], st.2).

(** [modulefinder] scans the code of a module when it loads it: an import
    that fails goes to [badmodules]; an import of a local module loads that
    module, unless it is in [modules] already, and scans it in turn. So a
    run lists the failed imports of the loaded file and of every local
    module reached from it. (Of one file the failed imports are taken before
    the others, which only bears on the order of the lists.) *)
Fixpoint scan (files : Fixture.codebase) (fuel : nat) (name : string)
    (file : option Path) (st : scan_state) : scan_state :=
  if bool_decide (name ∈ st.2.*1) then st
  else
    let st := (st.1, st.2 ++ [(name, file)]) in
    match fuel, file with
    | S fuel', Some rel_pth =>
        match Fixture.find_file files rel_pth with
        | Some src =>
            fold_left (fun st '(module_name, f) => scan files fuel' module_name f st)
              (Fixture.good_imports src)
              (fold_left add_bad (Fixture.bad_imports src) st)
        | None => st
        end
    | _, _ => st
    end.

(** [ModuleFinder(path=[root_dir]).load_file(pathname)] over a code base. *)
Definition run_finder (files : Fixture.codebase) (root_dir pathname : Path)
  : option ModuleFinder :=
  match relative_to pathname root_dir with
  | None => None
  | Some rel_pth =>
      match Fixture.find_file files rel_pth with
      | Some src =>
          let st := scan files (S (length files)) (Fixture.own_name src)
                      (Some rel_pth) ([], []) in
          Some {| badmodules := st.1;
                  modules :=
                    (fun nf => (nf.1, {| module_file := joinpath root_dir <$> nf.2 |}))
                      <$> st.2 |}
      | None => None
      end
  end.

Definition main_py : Path := ["main.py"].
Definition helper_py : Path := ["helper.py"].

(** [main.py] holds [import helper], and [helper.py] holds [import other];
    there is no module [other]. *)
Definition code : Fixture.codebase :=
  [(main_py, {| Fixture.own_name := "main";
                Fixture.bad_imports := [];
                Fixture.good_imports := [("helper", Some helper_py)] |});
   (helper_py, {| Fixture.own_name := "helper";
                  Fixture.bad_imports := ["other"];
                  Fixture.good_imports := [] |})].

Definition tree : Env :=
  {| is_file := fun _ => false;
     is_dir := fun _ => false;
     glob_py := fun _ => [];
     requirements_parser_parse := Fixture.pins_parse;
     csv_reader := Fixture.tsv_reader;
     repr_str := Fixture.repr_plain;
     load_file := run_finder code;
     _STDLIB_SET := list_to_set ["os"; "sys"] |}.

End Transitive.

(** * Properties *)

(** ** Strings *)

Lemma list_ascii_of_string_app (s t : string) :
  list_ascii_of_string (s +:+ t)
  = list_ascii_of_string s ++ list_ascii_of_string t.
Proof. induction s as [|c s IH]; simpl; [done | by rewrite IH]. Qed.

Lemma length_list_ascii_of_string (s : string) :
  length (list_ascii_of_string s) = String.length s.
Proof. induction s as [|c s IH]; simpl; [done | by rewrite IH]. Qed.

Lemma string_of_list_ascii_app (l k : list ascii) :
  string_of_list_ascii (l ++ k)
  = string_of_list_ascii l +:+ string_of_list_ascii k.
Proof. induction l as [|c l IH]; simpl; [done | by rewrite IH]. Qed.

Lemma endswith_unfold (s suffix : string) :
  endswith s suffix
  = if String.eqb s suffix then true
    else match s with
         | EmptyString => false
         | String _ s' => endswith s' suffix
         end.
Proof. by destruct s. Qed.

Lemma endswith_refl (s : string) : endswith s s = true.
Proof. by rewrite endswith_unfold, String.eqb_refl. Qed.

Lemma endswith_app (p s : string) : endswith (p +:+ s) s = true.
Proof.
  induction p as [|c p IH].
  - apply endswith_refl.
  - rewrite endswith_unfold. destruct (String.eqb _ _); [done | apply IH].
Qed.

Lemma endswith_inv (s suffix : string) :
  endswith s suffix = true -> exists p, s = p +:+ suffix.
Proof.
  induction s as [|c s IH]; rewrite endswith_unfold;
    destruct (String.eqb _ suffix) eqn:Heq.
  - apply String.eqb_eq in Heq. intros _. by exists EmptyString.
  - done.
  - apply String.eqb_eq in Heq. intros _. by exists EmptyString.
  - intros [p ->]%IH. by exists (String c p).
Qed.

Lemma trailing_LF_app_LF (p : string) :
  trailing_LF (p +:+ LF) = S (trailing_LF p).
Proof.
  unfold trailing_LF. rewrite list_ascii_of_string_app, rev_app_distr. done.
Qed.

Lemma trailing_LF_pos_endswith (s : string) :
  0 < trailing_LF s -> endswith s LF = true.
Proof.
  unfold trailing_LF. intros Hpos.
  destruct (rev (list_ascii_of_string s)) as [|c l] eqn:Hrev; simpl in Hpos; [lia|].
  destruct (Ascii.eqb c (ascii_of_nat 10)) eqn:Hc; [|lia].
  apply Ascii.eqb_eq in Hc. subst c.
  assert (s = string_of_list_ascii (rev l) +:+ LF) as ->.
  { rewrite <- (string_of_list_ascii_of_string s).
    rewrite <- (rev_involutive (list_ascii_of_string s)), Hrev. simpl.
    by rewrite string_of_list_ascii_app. }
  apply endswith_app.
Qed.

Lemma without_trailing_LF_app_LF (p : string) :
  without_trailing_LF (p +:+ LF) = without_trailing_LF p.
Proof.
  unfold without_trailing_LF.
  rewrite trailing_LF_app_LF, list_ascii_of_string_app.
  rewrite <- !length_list_ascii_of_string, list_ascii_of_string_app, length_app.
  simpl. f_equal.
  replace (length (list_ascii_of_string p) + 1 - S (trailing_LF p))
    with (length (list_ascii_of_string p) - trailing_LF p) by lia.
  rewrite take_app_le; [done | lia].
Qed.

(** ** Requirement *)

(** The checked constructor returns what [__init__] stored, and it returns
    exactly when the name carries no surrounding whitespace: the invariant on
    the line never fails. *)
Lemma Requirement_new_init (name line : string) :
  Requirement.new name line
  = if String.eqb (strip name) name then Ok (Requirement.init name line)
    else Raise ViolationError.
Proof.
  unfold Requirement.new, Requirement.invariant_line, Requirement.invariant_name.
  simpl. destruct (endswith line LF) eqn:Hend; simpl.
  - rewrite Hend. simpl. by destruct (String.eqb (strip name) name).
  - rewrite endswith_app. simpl. by destruct (String.eqb (strip name) name).
Qed.

(** C8 (as amended): the line stored by the constructor ends with a line
    feed and has the content of the given line in front of its final line
    feeds; it ends with as many line feeds as the given line, and with one
    when the given line ends with none. So exactly one line feed ends the
    stored line when at most one ends the given line (as for the stripped
    lines the requirements parser yields), and a line given with several
    keeps them all. *)
Theorem Requirement_line_feeds (name line : string) :
  endswith (Requirement.line (Requirement.init name line)) LF = true
  /\ without_trailing_LF (Requirement.line (Requirement.init name line))
     = without_trailing_LF line
  /\ trailing_LF (Requirement.line (Requirement.init name line))
     = Nat.max 1 (trailing_LF line).
Proof.
  simpl. destruct (endswith line LF) eqn:Hend; simpl.
  - split; [done|]. split; [done|].
    apply endswith_inv in Hend as [p ->]. rewrite trailing_LF_app_LF. lia.
  - split; [apply endswith_app|]. split; [apply without_trailing_LF_app_LF|].
    rewrite trailing_LF_app_LF.
    destruct (trailing_LF line) as [|n] eqn:Hn; [done|].
    rewrite trailing_LF_pos_endswith in Hend; [done | lia].
Qed.

(** C8 fails as stated: a line given with two final line feeds is stored
    with both, which is not its content plus a single line feed. *)
Lemma Requirement_keeps_two_line_feeds :
  exists r, Requirement.new "a" ("a==1" +:+ LF +:+ LF) = Ok r
    /\ Requirement.line r = "a==1" +:+ LF +:+ LF
    /\ trailing_LF (Requirement.line r) = 2
    /\ Requirement.line r <> without_trailing_LF ("a==1" +:+ LF +:+ LF) +:+ LF.
Proof.
  eexists. split; [vm_compute; reflexivity|]. vm_compute. repeat split. discriminate.
Qed.


(** ** OrderedDict *)

Lemma OrderedDict_get_setitem {V : Type} (d : OrderedDict.t V) (k k' : string) (v : V) :
  OrderedDict.get (OrderedDict.setitem k v d) k'
  = if decide (k = k') then Some v else OrderedDict.get d k'.
Proof.
  induction d as [|[k0 v0] d IH]; simpl.
  - destruct (decide (k = k')) as [->|Hne].
    + by rewrite String.eqb_refl.
    + apply String.eqb_neq in Hne. by rewrite Hne.
  - destruct (String.eqb k0 k) eqn:Hk0; simpl.
    + apply String.eqb_eq in Hk0. subst k0.
      destruct (decide (k = k')) as [->|Hne].
      * by rewrite String.eqb_refl.
      * apply String.eqb_neq in Hne. by rewrite Hne.
    + rewrite IH. destruct (String.eqb k0 k') eqn:Hk; [|done].
      apply String.eqb_eq in Hk. apply String.eqb_neq in Hk0. subst k'.
      by destruct (decide (k = k0)) as [->|Hne].
Qed.

Lemma OrderedDict_keys_setitem {V : Type} (d : OrderedDict.t V) (k : string) (v : V) :
  OrderedDict.keys (OrderedDict.setitem k v d)
  = if decide (k ∈ OrderedDict.keys d) then OrderedDict.keys d
    else OrderedDict.keys d ++ [k].
Proof.
  unfold OrderedDict.keys. induction d as [|[k0 v0] d IH].
  - by rewrite decide_False by apply not_elem_of_nil.
  - cbn [OrderedDict.setitem]. destruct (String.eqb k0 k) eqn:Hk0.
    + apply String.eqb_eq in Hk0. subst k0.
      by rewrite decide_True by (cbn; left).
    + apply String.eqb_neq in Hk0. cbn [map fst]. rewrite IH.
      destruct (decide (k ∈ map fst d)) as [Hin|Hin].
      * by rewrite decide_True by (by right).
      * rewrite decide_False; [done|].
        intros [?|?]%elem_of_cons; congruence.
Qed.

Lemma OrderedDict_contains_keys {V : Type} (d : OrderedDict.t V) (k : string) :
  OrderedDict.contains d k = true <-> k ∈ OrderedDict.keys d.
Proof.
  unfold OrderedDict.contains, OrderedDict.keys.
  induction d as [|[k0 v0] d IH]; simpl.
  - split; [done | by intros ?%elem_of_nil].
  - destruct (String.eqb k0 k) eqn:Hk0.
    + apply String.eqb_eq in Hk0. subst. split; [|done]. intros _. by left.
    + apply String.eqb_neq in Hk0. rewrite IH. split.
      * intros ?. by right.
      * intros [?|?]%elem_of_cons; [congruence | done].
Qed.

(** ** parse_requirements *)

Lemma parse_requirements_loop_spec (events : list parse_event) (filename : string) :
  forall acc d,
    parse_requirements_loop events filename acc = Ok d ->
    OrderedDict.keys d
    = OrderedDict.keys acc
        ++ filter (fun n => n ∉ OrderedDict.keys acc)
             (first_occurrences (omap req_name (yielded events)))
    /\ (forall name,
          OrderedDict.get d name
          = match last (lines_named name (yielded events)) with
            | Some l => Some (Requirement.init name l)
            | None => OrderedDict.get acc name
            end)
    /\ length (yielded events) = length events.
Proof.
  induction events as [|[req|] events IH]; intros acc d.
  - intros [= <-]. simpl. by rewrite app_nil_r.
  - cbn [parse_requirements_loop yielded].
    destruct (req_name req) as [n|] eqn:Hn; [|done].
    rewrite Requirement_new_init.
    destruct (String.eqb (strip n) n); [|done].
    cbn [bind Requirement.init Requirement.name].
    intros (Hkeys & Hget & Hlen)%IH. split; [|split].
    + rewrite Hkeys, OrderedDict_keys_setitem.
      change (omap req_name (req :: yielded events))
        with (match req_name req with
              | Some y => y :: omap req_name (yielded events)
              | None => omap req_name (yielded events)
              end).
      rewrite Hn. cbn [first_occurrences].
      set (ks := OrderedDict.keys acc).
      set (fo := first_occurrences _). clearbody ks fo.
      destruct (decide (n ∈ ks)) as [Hin|Hin].
      * rewrite filter_cons, decide_False by tauto.
        rewrite list_filter_filter. f_equal. apply list_filter_iff.
        intros x. split; [|tauto]. intros Hx. split; [done|]. congruence.
      * rewrite filter_cons, decide_True by done.
        rewrite <- app_assoc. cbn [app]. do 2 f_equal.
        rewrite list_filter_filter. apply list_filter_iff.
        intros x. rewrite elem_of_app, list_elem_of_singleton. tauto.
    + intros name. rewrite Hget, OrderedDict_get_setitem.
      unfold lines_named. rewrite filter_cons.
      destruct (decide (req_name req = Some name)) as [Heq|Hne].
      * assert (n = name) as -> by congruence.
        rewrite fmap_cons, last_cons, decide_True by done.
        by destruct (last _).
      * rewrite decide_False by congruence. done.
    + simpl. by rewrite Hlen.
  - done.
Qed.

(** C4 (as amended): when the same package name is declared on several
    lines, the requirement kept under it is the one of its last declaration;
    the keys of the returned mapping stand in the order in which the names
    are first declared. *)
Theorem parse_requirements_last_declaration (E : Env) (text filename : string)
    (d : OrderedDict.t Requirement.t) :
  parse_requirements E text filename = Ok d ->
  OrderedDict.keys d
  = first_occurrences (omap req_name (yielded (requirements_parser_parse E text)))
  /\ forall name,
       OrderedDict.get d name
       = Requirement.init name
           <$> last (lines_named name (yielded (requirements_parser_parse E text))).
Proof.
  unfold parse_requirements, parse_requirements_body.
  destruct (parse_requirements_loop _ _ _) as [d'|] eqn:Hloop; [|done]. simpl.
  destruct (parse_requirements_post d'); [|done]. simpl. intros [= <-].
  apply parse_requirements_loop_spec in Hloop as (Hkeys & Hget & _).
  split.
  - rewrite Hkeys. cbn [OrderedDict.keys map app].
    set (fo := first_occurrences _). clearbody fo. clear.
    induction fo as [|x fo IH]; [done|].
    rewrite filter_cons, decide_True by apply not_elem_of_nil. by rewrite IH.
  - intros name. rewrite Hget. by destruct (last _).
Qed.

Lemma parse_requirements_last_declaration_witness :
  let E := Fixture.env [] [] [] [] in
  let text := "a==1" +:+ LF +:+ "b" +:+ LF +:+ "a==2" in
  parse_requirements E text "<unknown>"
  = Ok [("a", Requirement.init "a" "a==2"); ("b", Requirement.init "b" "b")]
  /\ OrderedDict.keys
       [("a", Requirement.init "a" "a==2"); ("b", Requirement.init "b" "b")]
     = first_occurrences (omap req_name (yielded (requirements_parser_parse E text))).
Proof.
  split; [vm_compute; reflexivity|].
  apply (parse_requirements_last_declaration
           (Fixture.env [] [] [] []) ("a==1" +:+ LF +:+ "b" +:+ LF +:+ "a==2")
           "<unknown>").
  vm_compute. reflexivity.
Defined.

(** C4 fails as stated: with the name [a] declared on the first and on the
    second line, the mapping holds the requirement of the second line, not
    the one of the first. *)
Lemma parse_requirements_keeps_second_line :
  let E := Fixture.env [] [] [] [] in
  exists d, parse_requirements E ("a==1" +:+ LF +:+ "a==2") "<unknown>" = Ok d
    /\ OrderedDict.get d "a" = Some (Requirement.init "a" "a==2")
    /\ OrderedDict.get d "a" <> Some (Requirement.init "a" "a==1").
Proof.
  eexists. split; [vm_compute; reflexivity|]. split; [vm_compute; reflexivity|].
  vm_compute. discriminate.
Qed.

(** ** resolve_initial_paths *)

Lemma elem_of_insert_sorted (p x : Path) (l : list Path) :
  x ∈ insert_sorted p l <-> x = p \/ x ∈ l.
Proof.
  induction l as [|q l IH]; simpl.
  - rewrite list_elem_of_singleton. split; [by left | intros [?|?%elem_of_nil]; done].
  - destruct (path_leb q p); rewrite !elem_of_cons, ?IH; tauto.
Qed.

Lemma elem_of_sorted (x : Path) (l : list Path) : x ∈ sorted l <-> x ∈ l.
Proof.
  assert (forall k, x ∈ foldr insert_sorted [] k <-> x ∈ k) as Hfold.
  { induction k as [|p k IH]; simpl; [done|].
    rewrite elem_of_insert_sorted, IH, elem_of_cons. tauto. }
  unfold sorted. rewrite Hfold, !list_elem_of_In. symmetry. apply in_rev.
Qed.

Lemma add_subpaths_spec (subpths : list Path) :
  forall acc,
    seen_is_result acc ->
    seen_is_result (add_subpaths subpths acc)
    /\ forall x, x ∈ (add_subpaths subpths acc).1 -> x ∈ acc.1 \/ x ∈ subpths.
Proof.
  unfold add_subpaths.
  induction subpths as [|s subpths IH]; intros [result seen] [Hseen Hnd]; simpl.
  - split; [done | tauto].
  - simpl in *. case_bool_decide as Hs.
    + destruct (IH (result ++ [s], {[s]} ∪ seen)) as [Hinv Hsub].
      { split; simpl.
        - intros x. rewrite elem_of_union, elem_of_singleton, elem_of_app,
            list_elem_of_singleton, Hseen. tauto.
        - apply NoDup_app. split; [done|]. split; [|apply NoDup_singleton].
          intros x Hx ->%list_elem_of_singleton. by apply Hs, Hseen. }
      split; [done|]. intros x [Hx|Hx]%Hsub; [|right; by right].
      simpl in Hx. apply elem_of_app in Hx as [Hx|Hx%list_elem_of_singleton];
        [by left | subst; right; by left].
    + destruct (IH (result, seen)) as [Hinv Hsub]; [done|].
      split; [done|]. intros x [Hx|Hx]%Hsub; [by left | right; by right].
Qed.

Lemma comes_from_app (E : Env) (done more : list Path) (x : Path) :
  comes_from E done x -> comes_from E (done ++ more) x.
Proof.
  intros [[Hx Hf]|(dir & Hd & ?)]; [left|right].
  - split; [|done]. apply elem_of_app. by left.
  - exists dir. split; [|done]. apply elem_of_app. by left.
Qed.

Lemma resolve_loop_spec (E : Env) (rest : list Path) :
  forall done acc acc',
    seen_is_result acc ->
    (forall x, x ∈ acc.1 -> comes_from E done x) ->
    no_file_passed_again E (done ++ rest) ->
    for_each (resolve_step E) rest acc = Ok acc' ->
    seen_is_result acc' /\ forall x, x ∈ acc'.1 -> comes_from E (done ++ rest) x.
Proof.
  induction rest as [|pth rest IH]; intros done acc acc' Hinv Hfrom Hno.
  - intros [= <-]. by rewrite app_nil_r.
  - cbn [for_each]. destruct (resolve_step E acc pth) as [acc1|] eqn:Hstep; [|done].
    cbn [bind]. intros Hrest.
    replace (done ++ pth :: rest) with ((done ++ [pth]) ++ rest) in *
      by (by rewrite <- app_assoc).
    apply (IH (done ++ [pth]) acc1 acc'); [| |done|done].
    + destruct acc as [result seen]. unfold resolve_step in Hstep.
      destruct (is_file E pth) eqn:Hfile.
      * injection Hstep as <-. destruct Hinv as [Hseen Hnd]. split; simpl in *.
        -- intros x. rewrite elem_of_union, elem_of_singleton, elem_of_app,
             list_elem_of_singleton, Hseen. tauto.
        -- apply NoDup_app. split; [done|]. split; [|apply NoDup_singleton].
           intros x Hx ->%list_elem_of_singleton.
           destruct (Hno done pth rest) as [Hnot Hglob];
             [by rewrite <- app_assoc | done |].
           destruct (Hfrom _ Hx) as [[? _]|(dir & ? & ? & ? & ?)]; [done|].
           by eapply Hglob.
      * destruct (is_dir E pth); [|done]. injection Hstep as <-.
        by apply add_subpaths_spec.
    + destruct acc as [result seen]. unfold resolve_step in Hstep.
      destruct (is_file E pth) eqn:Hfile.
      * injection Hstep as <-. simpl.
        intros x [Hx|Hx%list_elem_of_singleton]%elem_of_app.
        -- by apply comes_from_app, Hfrom.
        -- subst x. left. split; [|done]. apply elem_of_app. right. by left.
      * destruct (is_dir E pth) eqn:Hdir; [|done]. injection Hstep as <-.
        destruct (add_subpaths_spec (sorted (glob_py E pth)) (result, seen) Hinv)
          as [_ Hsub].
        intros x [Hx|Hx]%Hsub.
        -- by apply comes_from_app, Hfrom.
        -- apply (proj1 (elem_of_sorted _ _)) in Hx.
           right. exists pth. split; [apply elem_of_app; right; by left | done].
Qed.

Lemma resolve_initial_paths_returns_body (E : Env) (initial_paths result : list Path) :
  resolve_initial_paths E initial_paths = Ok result ->
  resolve_initial_paths_body E initial_paths = Ok result.
Proof.
  unfold resolve_initial_paths. destruct (negb (forallb _ _)); [done|].
  destruct (resolve_initial_paths_body E initial_paths) as [r|]; [|done].
  cbn [bind]. by repeat (destruct (negb _); [done|]).
Qed.

(** X21: every file stands once in the result if no file is passed directly
    after it was already passed directly or after a directory that holds
    it. *)
Theorem resolve_initial_paths_distinct (E : Env) (initial_paths result : list Path) :
  resolve_initial_paths E initial_paths = Ok result ->
  no_file_passed_again E initial_paths ->
  NoDup result.
Proof.
  intros Hbody%resolve_initial_paths_returns_body Hno.
  unfold resolve_initial_paths_body in Hbody.
  destruct initial_paths as [|pth rest]; [injection Hbody as <-; apply NoDup_nil_2|].
  destruct (for_each _ _ _) as [acc|] eqn:Hloop; [|done].
  injection Hbody as <-.
  apply (resolve_loop_spec E (pth :: rest) [] ([], ∅) acc) in Hloop as [[_ Hnd] _];
    [done| | |done].
  - split; [|apply NoDup_nil_2]. simpl. intros x. set_solver.
  - simpl. by intros x ?%elem_of_nil.
Qed.
Lemma resolve_initial_paths_distinct_witness :
  resolve_initial_paths Example.tree
    [Example.file_a; Example.dir_pkg; Example.file_main]
  = Ok [Example.file_a; Example.file_b; Example.file_main]
  /\ NoDup [Example.file_a; Example.file_b; Example.file_main].
Proof.
  split; [vm_compute; reflexivity|].
  apply (resolve_initial_paths_distinct Example.tree
           [Example.file_a; Example.dir_pkg; Example.file_main]).
  - vm_compute. reflexivity.
  - intros before pth after Hsplit Hfile.
    destruct before as [|p1 [|p2 [|p3 [|p4 before]]]];
      cbn [app] in Hsplit; simplify_eq.
    + split; [apply not_elem_of_nil | by intros dir ?%elem_of_nil].
    + split; [refine (proj1 (bool_decide_eq_false _) _); vm_compute; reflexivity|].
      intros dir Hdir Hf Hd. refine (proj1 (bool_decide_eq_false _) _).
      apply elem_of_cons in Hdir as [->|Hdir].
      * vm_compute in Hf. discriminate.
      * apply list_elem_of_singleton in Hdir as ->. vm_compute. reflexivity.
Defined.

(** C6: the branch for a directory tests [seen_pths] before it appends a
    file; the branch for a file adds to [seen_pths] but appends without the
    test. So a file passed twice directly stands twice in the result, and so
    does a file passed directly after the directory that holds it. *)
Lemma resolve_initial_paths_keeps_duplicates :
  resolve_initial_paths Example.tree [Example.file_main; Example.file_main]
  = Ok [Example.file_main; Example.file_main]
  /\ ~ NoDup [Example.file_main; Example.file_main]
  /\ resolve_initial_paths Example.tree [Example.dir_pkg; Example.file_a]
     = Ok [Example.file_a; Example.file_b; Example.file_a]
  /\ ~ NoDup [Example.file_a; Example.file_b; Example.file_a].
Proof.
  split; [vm_compute; reflexivity|]. split.
  { intros [Hnot _]%NoDup_cons. apply Hnot. by left. }
  split; [vm_compute; reflexivity|].
  intros [Hnot _]%NoDup_cons. apply Hnot. right. by left.
Qed.

(** C5: a directory without Python files adds nothing to the result, so for
    the single initial path [/repo/docs] the body computes the empty list,
    which is shorter than the input; the postcondition on the lengths then
    fails and no list is returned. *)
Theorem resolve_initial_paths_empty_directory :
  is_dir Example.tree Example.dir_empty = true
  /\ resolve_initial_paths_body Example.tree [Example.dir_empty] = Ok []
  /\ resolve_post_length [Example.dir_empty] [] = false
  /\ resolve_initial_paths Example.tree [Example.dir_empty] = Raise ViolationError.
Proof. vm_compute. done. Qed.

(** ** parse_module_to_requirement *)

(** The loop raises at the first row that does not have two fields; [i] is
    the number of rows before it. *)
Lemma parse_module_to_requirement_first_bad_row (E : Env) (filename : string)
    (good : list (list string)) (row : list string) (rest : list (list string)) :
  Forall (fun r => length r = 2) good ->
  length row <> 2 ->
  forall i acc,
    parse_module_to_requirement_loop E (good ++ row :: rest) i filename acc
    = Raise (ValueError (two_columns_message E (i + length good) row filename)).
Proof.
  intros Hgood Hrow. induction Hgood as [|r good Hr _ IH]; intros i acc.
  - cbn [app parse_module_to_requirement_loop length].
    rewrite Nat.add_0_r. by destruct row as [|? [|? [|]]].
  - destruct r as [|m [|q [|]]]; try done.
    cbn [app parse_module_to_requirement_loop]. rewrite IH.
    do 3 f_equal. simpl. lia.
Qed.

(** C7: the second row of the text has one field. The message puts the row
    number 2 where the number of columns belongs and the number of columns 1
    where the line number belongs: the first two arguments of [format] stand
    in the wrong order. *)
Theorem parse_module_to_requirement_numbers_swapped :
  parse_module_to_requirement Example.tree
    ("PIL.Image" +:+ TAB +:+ "pillow" +:+ LF +:+ "PIL pillow" +:+ LF) "<unknown>"
  = Raise (ValueError
      "Expected two columns, but got 2 on line 1 in <unknown>: ['PIL pillow']").
Proof. vm_compute. reflexivity. Qed.

(** ** missing_requirements *)

(** C9: two modules map to the package [pillow], which the requirements do
    not hold; the result names it twice, and the postcondition (checked only
    under [icontract.SLOW]) is false. *)
Theorem missing_requirements_repeats_name :
  missing_requirements [("PIL", "pillow"); ("PIL.Image", "pillow")] []
  = ["pillow"; "pillow"]
  /\ missing_requirements_post ["pillow"; "pillow"] = false.
Proof. vm_compute. done. Qed.

(** ** _format_table *)

(** C10: the empty table passes the precondition, and the body raises an
    [IndexError] at [table[0]]. *)
Theorem format_table_empty_raises :
  format_table_pre [] = true
  /\ _format_table [] = Raise (IndexError "list index out of range").
Proof. vm_compute. done. Qed.

(** The table of the unit test is rendered as the test expects. *)
Example format_table_golden :
  _format_table [["column 0"; "another column 1"]; ["00"; "01"]; ["10"; "11"]]
  = Ok ("column 0 | another column 1" +:+ LF
        +:+ "---------+-----------------" +:+ LF
        +:+ "00       | 01              " +:+ LF
        +:+ "10       | 11              ").
Proof. vm_compute. reflexivity. Qed.

(** ** collect_dependency_graph *)

(** *** The loop over [mfder.modules] *)

Lemma modules_loop_spec (E : Env) (root_dir rel_pth : Path)
    (mods : list (string * Module)) :
  forall pkg stk acc',
    for_each (visit_module E root_dir rel_pth) mods (pkg, stk) = Ok acc' ->
    Package.requirements acc'.1 = Package.requirements pkg
    /\ Package.unresolved_modules acc'.1 = Package.unresolved_modules pkg
    /\ Package.rel_paths acc'.1
       = (if existsb has_file mods then {[rel_pth]} ∪ Package.rel_paths pkg
          else Package.rel_paths pkg)
    /\ (forall x, x ∈ acc'.2 ->
          x ∈ stk
          \/ exists module_name file,
               (module_name, {| module_file := Some file |}) ∈ mods
               /\ relative_to file root_dir = Some x).
Proof.
  induction mods as [|[module_name [file]] mods IH]; intros pkg stk acc'.
  - intros [= <-]. simpl. auto.
  - cbn [for_each]. unfold visit_module at 1. cbn [module_file].
    destruct file as [file|].
    + destruct (relative_to file root_dir) as [module_rel_pth|] eqn:Hrel; [|done].
      cbn [bind]. intros (Hreq & Hunres & Hpaths & Hstk)%IH.
      cbn [Package.requirements Package.unresolved_modules Package.rel_paths]
        in Hreq, Hunres, Hpaths.
      split; [done|]. split; [done|]. split.
      * rewrite Hpaths. cbn [existsb has_file snd module_file orb].
        destruct (existsb has_file mods); [|done].
        by rewrite (assoc_L (∪)), (idemp_L (∪)).
      * intros x [Hx|(m & f & Hin & Hf)]%Hstk.
        -- apply elem_of_cons in Hx as [->|Hx]; [|by left].
           right. exists module_name, file. split; [by left | done].
        -- right. exists m, f. split; [by right | done].
    + destruct (bool_decide (module_name ∉ _STDLIB_SET E)); [done|].
      cbn [bind]. intros (Hreq & Hunres & Hpaths & Hstk)%IH.
      split; [done|]. split; [done|]. split; [done|].
      intros x [Hx|(m & f & Hin & Hf)]%Hstk; [by left|].
      right. exists m, f. split; [by right | done].
Qed.

Lemma existsb_has_file (mods : list (string * Module)) :
  existsb has_file mods = true
  <-> exists module_name file, (module_name, {| module_file := Some file |}) ∈ mods.
Proof.
  induction mods as [|[m [f]] mods IH]; simpl.
  - split; [done | by intros (? & ? & ?%elem_of_nil)].
  - unfold has_file at 1. simpl. destruct f as [f|]; simpl.
    + split; [|done]. intros _. exists m, f. by left.
    + rewrite IH. split.
      * intros (m' & f' & Hin). exists m', f'. by right.
      * intros (m' & f' & [Heq|Hin]%elem_of_cons); [done | by exists m', f'].
Qed.

Lemma size_add_new (p : Path) (paths : gset Path) :
  p ∉ paths -> size ({[p]} ∪ paths) = size paths + 1.
Proof.
  intros Hp. rewrite size_union, size_singleton; [lia|].
  by apply disjoint_singleton_l.
Qed.

(** *** One iteration *)

(** What an iteration that gets past the revisit guard and returns has done. *)
Lemma loop_iteration_visit (E : Env) (root_dir : Path)
    (requirements : OrderedDict.t Requirement.t)
    (module_to_requirement : OrderedDict.t string)
    (st st' : LoopState) (rel_pth : Path) (rest : list Path) :
  rel_pth ∉ Package.rel_paths (package st) ->
  loop_iteration E root_dir requirements module_to_requirement st rel_pth rest
  = Ok st' ->
  exists mfder acc1 acc2,
    is_absolute rel_pth = false
    /\ load_file E root_dir (joinpath root_dir rel_pth) = Some mfder
    /\ for_each (visit_badmodule E requirements module_to_requirement rel_pth)
         (badmodules mfder) (package st, unresolved_module_set st) = Ok acc1
    /\ for_each (visit_module E root_dir rel_pth) (modules mfder) (acc1.1, rest)
       = Ok acc2
    /\ size (Package.rel_paths (package st)) + 1 = size (Package.rel_paths acc2.1)
    /\ st' = {| package := acc2.1; stack := acc2.2;
                unresolved_module_set := acc1.2 |}.
Proof.
  intros Hnew. unfold loop_iteration.
  destruct (is_absolute rel_pth); [done|].
  rewrite bool_decide_eq_false_2 by done.
  destruct (load_file E root_dir _) as [mfder|] eqn:Hload; [|done]. cbn [bind].
  destruct (for_each (visit_badmodule _ _ _ _) _ _) as [acc1|] eqn:H1; [|done].
  cbn [bind].
  destruct (for_each (visit_module _ _ _) _ _) as [acc2|] eqn:H2; [|done].
  cbn [bind].
  destruct (_ =? _) eqn:Hsize; [|done]. cbn [negb].
  intros [= <-]. apply Nat.eqb_eq in Hsize.
  by exists mfder, acc1, acc2.
Qed.

(** An iteration for a visited path only pops it. *)
Lemma loop_iteration_revisit (E : Env) (root_dir : Path)
    (requirements : OrderedDict.t Requirement.t)
    (module_to_requirement : OrderedDict.t string)
    (st st' : LoopState) (rel_pth : Path) (rest : list Path) :
  rel_pth ∈ Package.rel_paths (package st) ->
  loop_iteration E root_dir requirements module_to_requirement st rel_pth rest
  = Ok st' ->
  is_absolute rel_pth = false
  /\ st' = {| package := package st; stack := rest;
              unresolved_module_set := unresolved_module_set st |}.
Proof.
  intros Hold. unfold loop_iteration.
  destruct (is_absolute rel_pth); [done|].
  rewrite bool_decide_eq_true_2 by done. by intros [= <-].
Qed.

(** *** The loop over [mfder.badmodules] *)

Lemma badmodules_loop_spec (E : Env) (requirements : OrderedDict.t Requirement.t)
    (module_to_requirement : OrderedDict.t string) (rel_pth : Path)
    (names : list string) :
  forall pkg uset acc',
    for_each (visit_badmodule E requirements module_to_requirement rel_pth)
      names (pkg, uset) = Ok acc' ->
    Package.rel_paths acc'.1 = Package.rel_paths pkg
    /\ exists new,
         Package.unresolved_modules acc'.1
         = Package.unresolved_modules pkg ++ (unresolved_from rel_pth <$> new)
         /\ NoDup new
         /\ (forall n, n ∈ new ->
               (n ∉ uset) /\ n ∈ names
               /\ OrderedDict.contains module_to_requirement n = false
               /\ (n ∉ _STDLIB_SET E))
         /\ (forall n, n ∈ acc'.2 <-> n ∈ uset \/ n ∈ new)
         /\ (forall n, n ∈ names ->
               OrderedDict.contains module_to_requirement n = false ->
               n ∉ _STDLIB_SET E -> n ∈ acc'.2).
Proof.
  induction names as [|m names IH]; intros pkg uset acc'.
  - intros [= <-]. split; [done|]. exists []. cbn [fst snd fmap list_fmap].
    rewrite app_nil_r. split; [done|]. split; [apply NoDup_nil_2|].
    split; [by intros n ?%elem_of_nil|]. split; [|by intros n ?%elem_of_nil].
    intros n. split; [by left | by intros [?|?%elem_of_nil]].
  - cbn [for_each].
    destruct (visit_badmodule _ _ _ _ _ m) as [[pkg1 uset1]|] eqn:Hstep; [|done].
    cbn [bind]. intros (Hpaths & new & Hunres & Hnd & Hnew & Hset & Hall)%IH.
    unfold visit_badmodule in Hstep.
    destruct (OrderedDict.contains module_to_requirement m) eqn:Hmap.
    { (* a key of the module map *)
      assert (Package.rel_paths pkg1 = Package.rel_paths pkg
              /\ Package.unresolved_modules pkg1 = Package.unresolved_modules pkg
              /\ uset1 = uset) as (Hp & Hu & ->).
      { destruct (OrderedDict.getitem module_to_requirement m); [|done].
        cbn [bind] in Hstep. destruct (negb _); [|by injection Hstep as <- <-].
        destruct (OrderedDict.getitem requirements _); [|done].
        by injection Hstep as <- <-. }
      split; [congruence|]. exists new. rewrite <- Hu.
      split; [done|]. split; [done|]. split.
      { intros n Hn. destruct (Hnew n Hn) as (? & ? & ? & ?).
        repeat split; try done. by right. }
      split; [done|]. intros n [->|Hn]%elem_of_cons; [congruence | by apply Hall]. }
    case_bool_decide as Hstd.
    { (* a module of the standard library *)
      injection Hstep as <- <-. split; [done|]. exists new.
      split; [done|]. split; [done|]. split.
      { intros n Hn. destruct (Hnew n Hn) as (? & ? & ? & ?).
        repeat split; try done. by right. }
      split; [done|]. intros n [->|Hn]%elem_of_cons; [done | by apply Hall]. }
    case_bool_decide as Hfresh.
    + (* a new unresolved module *)
      injection Hstep as <- <-.
      cbn [Package.rel_paths Package.unresolved_modules] in *.
      split; [done|]. exists (m :: new). split.
      { rewrite Hunres, <- app_assoc. done. }
      split.
      { apply NoDup_cons. split; [|done]. intros Hin.
        destruct (Hnew m Hin) as (Hnot & _). apply Hnot.
        apply elem_of_union. left. by apply elem_of_singleton. }
      split.
      { intros n [->|Hn]%elem_of_cons.
        - repeat split; try done. by left.
        - destruct (Hnew n Hn) as (Hnot & ? & ? & ?).
          repeat split; try done; [|by right].
          intros Hin. apply Hnot, elem_of_union. by right. }
      split.
      { intros n. rewrite Hset, elem_of_union, elem_of_singleton, elem_of_cons.
        tauto. }
      intros n [->|Hn]%elem_of_cons; [|by apply Hall].
      intros _ _. apply Hset. left. apply elem_of_union. left.
      by apply elem_of_singleton.
    + (* an unresolved module that was recorded before *)
      injection Hstep as <- <-. split; [done|]. exists new.
      split; [done|]. split; [done|]. split.
      { intros n Hn. destruct (Hnew n Hn) as (? & ? & ? & ?).
        repeat split; try done. by right. }
      split; [done|]. intros n [->|Hn]%elem_of_cons; [|by apply Hall].
      intros _ _. apply Hset. by left.
Qed.

(** *** The size assertion *)

Lemma badmodules_loop_raises (E : Env) (requirements : OrderedDict.t Requirement.t)
    (module_to_requirement : OrderedDict.t string) (rel_pth : Path)
    (names : list string) :
  forall acc e,
    for_each (visit_badmodule E requirements module_to_requirement rel_pth)
      names acc = Raise e ->
    exists key, e = KeyError key.
Proof.
  induction names as [|n names IH]; intros [pkg uset] e; [done|].
  cbn [for_each].
  destruct (visit_badmodule _ _ _ _ _ n) as [acc1|e1] eqn:Hstep; cbn [bind].
  - apply IH.
  - intros [= <-]. unfold visit_badmodule in Hstep.
    destruct (OrderedDict.contains module_to_requirement n).
    + unfold OrderedDict.getitem in Hstep.
      destruct (OrderedDict.get module_to_requirement n) as [req_name|];
        cbn [bind] in Hstep; [|injection Hstep as <-; by eexists].
      destruct (negb _); [|done].
      destruct (OrderedDict.get requirements req_name); cbn [bind] in Hstep;
        [done | injection Hstep as <-; by eexists].
    + by repeat case_bool_decide.
Qed.

Lemma modules_loop_raises (E : Env) (root_dir rel_pth : Path)
    (mods : list (string * Module)) :
  forall acc e,
    for_each (visit_module E root_dir rel_pth) mods acc = Raise e ->
    e <> AssertionError only_one_dependency.
Proof.
  induction mods as [|[module_name [file]] mods IH]; intros [pkg stk] e; [done|].
  cbn [for_each].
  destruct (visit_module _ _ _ _ _) as [acc1|e1] eqn:Hstep; cbn [bind].
  - apply IH.
  - intros [= <-]. unfold visit_module in Hstep. cbn [module_file] in Hstep.
    destruct file as [file|].
    + destruct (relative_to file root_dir); [done|]. by injection Hstep as <-.
    + case_bool_decide; [|done]. injection Hstep as <-.
      unfold only_one_dependency. simpl. discriminate.
Qed.

(** C1: the module finder enters the module of the file it loads, with its
    pathname as [__file__]. Then the assertion on the size of [rel_paths]
    never fails, in no iteration and so in no run: an iteration that gets
    past the revisit guard adds the path it handles, and only that path, to
    [rel_paths]. *)
Theorem one_new_path_per_iteration (E : Env) (root_dir : Path)
    (requirements : OrderedDict.t Requirement.t)
    (module_to_requirement : OrderedDict.t string) :
  loads_own_module E root_dir ->
  (forall st rel_pth rest,
     loop_iteration E root_dir requirements module_to_requirement st rel_pth rest
     <> Raise (AssertionError only_one_dependency))
  /\ (forall st rel_pth rest st',
        rel_pth ∉ Package.rel_paths (package st) ->
        loop_iteration E root_dir requirements module_to_requirement st rel_pth rest
        = Ok st' ->
        Package.rel_paths (package st') = {[rel_pth]} ∪ Package.rel_paths (package st)
        /\ size (Package.rel_paths (package st'))
           = size (Package.rel_paths (package st)) + 1)
  /\ (forall fuel rel_paths,
        collect_dependency_graph E fuel root_dir rel_paths requirements
          module_to_requirement
        <> Raised (AssertionError only_one_dependency)).
Proof.
  intros Hown.
  assert (forall st rel_pth rest,
            loop_iteration E root_dir requirements module_to_requirement st rel_pth rest
            <> Raise (AssertionError only_one_dependency)) as Hiter.
  { intros st rel_pth rest. unfold loop_iteration.
    destruct (is_absolute rel_pth); [unfold only_one_dependency; discriminate|].
    case_bool_decide as Hvisited; [done|].
    destruct (load_file E root_dir _) as [mfder|] eqn:Hload; [|done]. cbn [bind].
    destruct (for_each (visit_badmodule _ _ _ _) _ _) as [acc1|e1] eqn:H1; cbn [bind].
    2:{ apply badmodules_loop_raises in H1 as [key ->]. done. }
    destruct (for_each (visit_module _ _ _) _ _) as [acc2|e2] eqn:H2; cbn [bind].
    2:{ apply modules_loop_raises in H2. congruence. }
    destruct acc1 as [pkg1 uset1]. cbn [fst snd] in *.
    apply modules_loop_spec in H2 as (_ & _ & Hpaths & _).
    destruct (Hown _ _ Hload) as [module_name Hin].
    rewrite (proj2 (existsb_has_file _)) in Hpaths by eauto.
    apply badmodules_loop_spec in H1 as [Hsame _]. cbn [fst] in Hsame.
    rewrite Hpaths, Hsame, size_add_new by done.
    by rewrite Nat.eqb_refl. }
  split; [done|]. split.
  - intros st rel_pth rest st' Hnew Hok.
    destruct (loop_iteration_visit _ _ _ _ _ _ _ _ Hnew Hok)
      as (mfder & [pkg1 uset1] & acc2 & _ & Hload & H1 & H2 & Hsize & ->).
    cbn [package fst snd] in *.
    apply modules_loop_spec in H2 as (_ & _ & Hpaths & _).
    destruct (Hown _ _ Hload) as [module_name Hin].
    rewrite (proj2 (existsb_has_file _)) in Hpaths by eauto.
    apply badmodules_loop_spec in H1 as [Hsame _]. cbn [fst] in Hsame.
    split; [|lia]. by rewrite Hpaths, Hsame.
  - intros fuel rel_paths. unfold collect_dependency_graph.
    destruct (negb _); [done|]. generalize (initial_state rel_paths).
    induction fuel as [|fuel IH]; intros st; cbn [while_stack]; [done|].
    destruct (stack st) as [|rel_pth rest]; [done|].
    destruct (loop_iteration _ _ _ _ _ _ _) as [st'|e] eqn:Hstep; [apply IH|].
    intros [= ->]. by apply Hiter in Hstep.
Qed.
(** The module finder of the examples enters the loaded file's module. *)
Lemma Fixture_loads_own_module (files : list Path) (dirs : list (Path * list Path))
    (code : Fixture.codebase) (stdlib : list string) (root_dir : Path) :
  loads_own_module (Fixture.env files dirs code stdlib) root_dir.
Proof.
  intros pathname mfder. cbn [load_file Fixture.env]. unfold Fixture.load_from.
  destruct (relative_to pathname root_dir) as [rel_pth|]; [|done].
  destruct (Fixture.find_file code rel_pth) as [src|]; [|done].
  intros [= <-]. exists (Fixture.own_name src). cbn [modules]. by left.
Qed.

Lemma one_new_path_per_iteration_witness :
  loads_own_module Example.tree Example.root_dir
  /\ forall fuel,
       collect_dependency_graph Example.tree fuel Example.root_dir
         [Example.main_py] Example.requirements Example.module_to_requirement
       <> Raised (AssertionError only_one_dependency).
Proof.
  split; [apply Fixture_loads_own_module|].
  intros fuel.
  apply (one_new_path_per_iteration Example.tree Example.root_dir
           Example.requirements Example.module_to_requirement
           (Fixture_loads_own_module _ _ _ _ _)).
Defined.

(** The example: three visits, one path each, and the two unresolved
    modules with the first visited file whose run lists them. *)
Example collect_example :
  exists pkg,
    collect_dependency_graph Example.tree 8 Example.root_dir [Example.main_py]
      Example.requirements Example.module_to_requirement = Returned pkg
    /\ Package.rel_paths pkg = {[Example.main_py; Example.a_py; Example.b_py]}
    /\ Package.unresolved_modules pkg
       = [unresolved_from Example.main_py "missing";
          unresolved_from Example.b_py "other"]
    /\ OrderedDict.keys (Package.requirements pkg) = ["pillow"].
Proof.
  eexists. split; [vm_compute; reflexivity|].
  split; [|split; reflexivity].
  refine (bool_decide_unpack _ _). vm_compute. exact I.
Qed.

(** Without a module that has a file the guarded path is not added and the
    assertion fails: the call [package.rel_paths.add(rel_pth)] stands inside
    the loop over the modules. *)
Example iteration_without_file_module :
  let E := {| is_file := fun _ => false; is_dir := fun _ => false;
              glob_py := fun _ => [];
              requirements_parser_parse := Fixture.pins_parse;
              csv_reader := Fixture.tsv_reader;
              repr_str := Fixture.repr_plain;
              load_file := fun _ _ =>
                Some {| badmodules := [];
                        modules := [("sys", {| module_file := None |})] |};
              _STDLIB_SET := {["sys"]} |} in
  ~ loads_own_module E Example.root_dir
  /\ loop_iteration E Example.root_dir [] [] (initial_state [Example.main_py])
       Example.main_py []
     = Raise (AssertionError only_one_dependency).
Proof.
  split; [|vm_compute; reflexivity].
  intros Hown. destruct (Hown Example.file_main _ eq_refl) as [m Hm].
  cbn [modules] in Hm. apply list_elem_of_singleton in Hm. discriminate.
Qed.

(** *** Unresolved modules *)

Lemma first_listing_app (E : Env) (root_dir : Path)
    (module_to_requirement : OrderedDict.t string) (log more : list Path)
    (u : UnresolvedModule.t) :
  first_listing E root_dir module_to_requirement log u ->
  first_listing E root_dir module_to_requirement (log ++ more) u.
Proof.
  intros (before & after & -> & Himp & Hfirst).
  exists before, (after ++ more). by rewrite <- app_assoc.
Qed.

Lemma traversal_inv_initial (E : Env) (root_dir : Path)
    (module_to_requirement : OrderedDict.t string) (rel_paths : list Path) :
  traversal_inv E root_dir module_to_requirement [] (initial_state rel_paths).
Proof.
  split; cbn.
  - intros n. split; [by intros ?%not_elem_of_empty | by intros ?%elem_of_nil].
  - apply NoDup_nil_2.
  - by intros u ?%elem_of_nil.
  - by intros p n ?%elem_of_nil.
Qed.

Lemma traversal_inv_step (E : Env) (root_dir : Path)
    (requirements : OrderedDict.t Requirement.t)
    (module_to_requirement : OrderedDict.t string)
    (log : list Path) (st st' : LoopState) (rel_pth : Path) (rest : list Path) :
  traversal_inv E root_dir module_to_requirement log st ->
  loop_iteration E root_dir requirements module_to_requirement st rel_pth rest
  = Ok st' ->
  traversal_inv E root_dir module_to_requirement
    (log ++ if is_visit st rel_pth then [rel_pth] else []) st'.
Proof.
  intros [Hset Hnd Hfirst Hall] Hok. unfold is_visit.
  destruct (decide (rel_pth ∈ Package.rel_paths (package st))) as [Hold|Hnew].
  - apply loop_iteration_revisit in Hok as [-> ->]; [|done].
    rewrite bool_decide_eq_false_2 by auto. cbn [negb andb].
    rewrite app_nil_r. by split.
  - destruct (loop_iteration_visit _ _ _ _ _ _ _ _ Hnew Hok)
      as (mfder & [pkg1 uset1] & [pkg2 stk2] & -> & Hload & H1 & H2 & _ & ->).
    rewrite bool_decide_eq_true_2 by done. cbn [negb andb fst snd] in *.
    apply badmodules_loop_spec in H1
      as (_ & new & Hunres & Hnd_new & Hnew_spec & Hset1 & Hall1).
    apply modules_loop_spec in H2 as (_ & Hunres2 & _ & _).
    cbn [fst snd] in *. rewrite Hunres in Hunres2. clear Hunres.
    split; cbn [package unresolved_module_set]; rewrite ?Hunres2.
    + intros n. rewrite Hset1, fmap_app, elem_of_app, Hset.
      rewrite <- list_fmap_compose.
      assert (UnresolvedModule.name ∘ unresolved_from rel_pth = id) as -> by done.
      by rewrite list_fmap_id.
    + rewrite fmap_app, <- list_fmap_compose.
      assert (UnresolvedModule.name ∘ unresolved_from rel_pth = id) as -> by done.
      rewrite list_fmap_id. apply NoDup_app. split; [done|]. split; [|done].
      intros n Hn%Hset Hin. by destruct (Hnew_spec n Hin) as [? _].
    + intros u [Hu|Hu]%elem_of_app.
      * by apply first_listing_app, Hfirst.
      * apply list_elem_of_fmap in Hu as (n & -> & Hn).
        destruct (Hnew_spec n Hn) as (Hfresh & Hbad & Hmap & Hstd).
        exists log, []. cbn [unresolved_from UnresolvedModule.imported_from
                               UnresolvedModule.name].
        split; [done|]. split; [by exists mfder|].
        intros p Hp Himp. by apply Hfresh, (Hall p n).
    + intros p n [Hp|Hp%list_elem_of_singleton]%elem_of_app Himp.
      * apply Hset1. left. by apply (Hall p n).
      * subst p. destruct Himp as (mfder' & Hload' & Hbad & Hmap & Hstd).
        assert (mfder' = mfder) as -> by congruence. by apply Hall1.
Qed.

Lemma traversal_inv_run (E : Env) (root_dir : Path)
    (requirements : OrderedDict.t Requirement.t)
    (module_to_requirement : OrderedDict.t string) (fuel : nat) :
  forall log st pkg,
    traversal_inv E root_dir module_to_requirement log st ->
    while_stack E root_dir requirements module_to_requirement fuel st
    = Returned pkg ->
    exists st',
      package st' = pkg
      /\ traversal_inv E root_dir module_to_requirement
           (log ++ visit_order E root_dir requirements module_to_requirement fuel st)
           st'.
Proof.
  induction fuel as [|fuel IH]; intros log st pkg Hinv; [done|].
  cbn [while_stack visit_order].
  destruct (stack st) as [|rel_pth rest].
  - intros [= <-]. exists st. by rewrite app_nil_r.
  - destruct (loop_iteration _ _ _ _ _ _ _) as [st'|] eqn:Hstep; [|done].
    intros Hrun. rewrite app_assoc. apply (IH _ st'); [|done].
    by eapply traversal_inv_step.
Qed.

(** X20: in the package that [collect_dependency_graph] returns no two
    entries of [unresolved_modules] have the same name, and each entry names
    the first visited file whose module finder run lists its module as a bad
    module that is neither mapped to a requirement nor in the standard
    library; every module that the run of a visited file lists so has an
    entry. *)
Theorem unresolved_modules_unique_first_listing (E : Env) (fuel : nat)
    (root_dir : Path) (rel_paths : list Path)
    (requirements : OrderedDict.t Requirement.t)
    (module_to_requirement : OrderedDict.t string) (pkg : Package.t) :
  collect_dependency_graph E fuel root_dir rel_paths requirements
    module_to_requirement = Returned pkg ->
  NoDup (UnresolvedModule.name <$> Package.unresolved_modules pkg)
  /\ (forall u,
        u ∈ Package.unresolved_modules pkg ->
        first_listing E root_dir module_to_requirement
          (visit_order E root_dir requirements module_to_requirement fuel
             (initial_state rel_paths)) u)
  /\ (forall p n,
        p ∈ visit_order E root_dir requirements module_to_requirement fuel
              (initial_state rel_paths) ->
        lists_unclassified E root_dir module_to_requirement p n ->
        n ∈ (UnresolvedModule.name <$> Package.unresolved_modules pkg)).
Proof.
  unfold collect_dependency_graph. destruct (negb _); [done|]. intros Hrun.
  destruct (traversal_inv_run E root_dir requirements module_to_requirement fuel
              [] (initial_state rel_paths) pkg
              (traversal_inv_initial _ _ _ _) Hrun)
    as (st' & <- & [Hset Hnd Hfirst Hall]).
  cbn [app] in *. split; [done|]. split; [done|].
  intros p n Hp Himp. by apply Hset, (Hall p n).
Qed.

Lemma unresolved_modules_unique_first_listing_witness :
  exists pkg,
    collect_dependency_graph Example.tree 8 Example.root_dir [Example.main_py]
      Example.requirements Example.module_to_requirement = Returned pkg
    /\ Package.unresolved_modules pkg
       = [unresolved_from Example.main_py "missing";
          unresolved_from Example.b_py "other"]
    /\ visit_order Example.tree Example.root_dir Example.requirements
         Example.module_to_requirement 8 (initial_state [Example.main_py])
       = [Example.main_py; Example.a_py; Example.b_py]
    /\ NoDup (UnresolvedModule.name <$> Package.unresolved_modules pkg).
Proof.
  eexists. split; [vm_compute; reflexivity|].
  split; [reflexivity|]. split; [vm_compute; reflexivity|].
  eapply (unresolved_modules_unique_first_listing Example.tree 8 Example.root_dir
            [Example.main_py] Example.requirements Example.module_to_requirement).
  vm_compute. reflexivity.
Defined.

(** C2: [imported_from] is the path the loop is at when the name first shows
    in [mfder.badmodules], and the module finder run on a file also lists the
    failed imports of the local modules it loads for that file. With
    [import helper] in [main.py] and [import other] in [helper.py], the run
    started on [main.py] lists [other]; the entry of [other] names
    [main.py], which does not import it, and not [helper.py], which does and
    is visited second. *)
Theorem unresolved_module_credited_to_first_visit :
  Fixture.bad_imports <$> Fixture.find_file Transitive.code Transitive.main_py
  = Some []
  /\ Fixture.bad_imports <$> Fixture.find_file Transitive.code Transitive.helper_py
     = Some ["other"]
  /\ badmodules <$> load_file Transitive.tree Example.root_dir
                      (joinpath Example.root_dir Transitive.main_py)
     = Some ["other"]
  /\ visit_order Transitive.tree Example.root_dir [] [] 5
       (initial_state [Transitive.main_py])
     = [Transitive.main_py; Transitive.helper_py]
  /\ exists pkg,
       collect_dependency_graph Transitive.tree 5 Example.root_dir
         [Transitive.main_py] [] [] = Returned pkg
       /\ Package.unresolved_modules pkg
          = [unresolved_from Transitive.main_py "other"].
Proof.
  do 4 (split; [vm_compute; reflexivity|]).
  eexists. split; [vm_compute; reflexivity|]. reflexivity.
Qed.

(** *** Termination *)

(** With enough fuel the outcome of the loop no longer depends on the fuel. *)
Lemma while_stack_more_fuel (E : Env) (root_dir : Path)
    (requirements : OrderedDict.t Requirement.t)
    (module_to_requirement : OrderedDict.t string) (fuel : nat) :
  forall st fuel',
    while_stack E root_dir requirements module_to_requirement fuel st <> OutOfFuel ->
    fuel <= fuel' ->
    while_stack E root_dir requirements module_to_requirement fuel' st
    = while_stack E root_dir requirements module_to_requirement fuel st.
Proof.
  induction fuel as [|fuel IH]; intros st fuel' Hend Hle; [done|].
  destruct fuel' as [|fuel']; [lia|]. cbn [while_stack] in *.
  destruct (stack st) as [|rel_pth rest]; [done|].
  destruct (loop_iteration _ _ _ _ _ _ _) as [st'|]; [|done].
  apply IH; [done | lia].
Qed.

Lemma unvisited_shrinks (files : list Path) (visited : gset Path) (p : Path) :
  p ∈ files -> p ∉ visited ->
  length (unvisited files ({[p]} ∪ visited)) < length (unvisited files visited).
Proof.
  unfold unvisited. intros Hin Hnew.
  induction files as [|q files IH]; [by apply elem_of_nil in Hin|].
  assert (length (filter (fun p0 => p0 ∉ {[p]} ∪ visited) files)
          <= length (filter (fun p0 => p0 ∉ visited) files)) as Hle.
  { clear. induction files as [|r files IH]; [done|].
    rewrite !filter_cons.
    destruct (decide (r ∉ {[p]} ∪ visited)) as [Hr|Hr].
    - rewrite decide_True; [simpl; lia|].
      intros ?. apply Hr, elem_of_union. by right.
    - destruct (decide (r ∉ visited)); simpl; lia. }
  rewrite !filter_cons. apply elem_of_cons in Hin as [<-|Hin].
  - rewrite decide_False, decide_True by (try done; set_solver). simpl. lia.
  - specialize (IH Hin).
    destruct (decide (q ∉ {[p]} ∪ visited)) as [Hq|Hq].
    + rewrite decide_True; [simpl; lia|].
      intros ?. apply Hq, elem_of_union. by right.
    + destruct (decide (q ∉ visited)); simpl; lia.
Qed.

Lemma while_stack_terminates (E : Env) (root_dir : Path)
    (requirements : OrderedDict.t Requirement.t)
    (module_to_requirement : OrderedDict.t string) (files : list Path) :
  closed_codebase E root_dir files ->
  forall n stk pkg uset,
    length (unvisited files (Package.rel_paths pkg)) <= n ->
    (forall p, p ∈ stk -> p ∈ files) ->
    exists fuel,
      while_stack E root_dir requirements module_to_requirement fuel
        {| package := pkg; stack := stk; unresolved_module_set := uset |}
      <> OutOfFuel.
Proof.
  intros Hclosed n.
  induction n as [n IHn] using lt_wf_ind.
  induction stk as [|rel_pth rest IHstk]; intros pkg uset Hn Hstk.
  - by exists 1.
  - destruct (loop_iteration E root_dir requirements module_to_requirement
                {| package := pkg; stack := rel_pth :: rest;
                   unresolved_module_set := uset |} rel_pth rest)
      as [st'|e] eqn:Hstep.
    2:{ exists 1. cbn [while_stack stack]. by rewrite Hstep. }
    assert (rel_pth ∈ files) as Hfile by (apply Hstk; by left).
    assert (forall p, p ∈ rest -> p ∈ files) as Hrest
      by (intros p Hp; apply Hstk; by right).
    destruct (decide (rel_pth ∈ Package.rel_paths pkg)) as [Hold|Hnew].
    + (* visited before: the path is dropped *)
      pose proof Hstep as Hrev.
      apply loop_iteration_revisit in Hrev as [_ ->]; [|done].
      cbn [package unresolved_module_set] in *.
      destruct (IHstk pkg uset Hn Hrest) as [fuel Hfuel].
      exists (S fuel). cbn [while_stack stack]. by rewrite Hstep.
    + (* a new path: one file less is left to visit *)
      pose proof Hstep as Hvisit.
      apply loop_iteration_visit in Hvisit
        as (mfder & [pkg1 uset1] & [pkg2 stk2] & _ & Hload & H1 & H2 & Hsize & ->);
        [|done].
      cbn [package fst snd] in *.
      apply badmodules_loop_spec in H1 as (Hsame & _). cbn [fst] in Hsame.
      apply modules_loop_spec in H2 as (_ & _ & Hpaths & Hstk2).
      cbn [fst snd] in *. rewrite Hsame in Hpaths.
      destruct (existsb has_file (modules mfder)) eqn:Hex.
      2:{ rewrite Hpaths in Hsize. lia. }
      assert (length (unvisited files (Package.rel_paths pkg2)) < n) as Hlt.
      { rewrite Hpaths. eapply Nat.lt_le_trans; [by apply unvisited_shrinks | done]. }
      destruct (IHn _ Hlt stk2 pkg2 uset1 (le_n _)) as [fuel Hfuel].
      { intros p [Hp|(m & f & Hin & Hrel)]%Hstk2; [by apply Hrest|].
        by eapply Hclosed. }
      exists (S fuel). cbn [while_stack stack]. by rewrite Hstep.
Qed.
(** C3: on a finite code base the loop of [collect_dependency_graph] ends,
    whatever the imports between its files are: some number of iterations
    suffices, after which the call has returned or raised, and more fuel
    does not change its outcome. A path that was visited is dropped when it
    is popped, and every other iteration leaves one file less to visit. *)
Theorem collect_dependency_graph_terminates (E : Env) (root_dir : Path)
    (rel_paths : list Path) (requirements : OrderedDict.t Requirement.t)
    (module_to_requirement : OrderedDict.t string) (files : list Path) :
  closed_codebase E root_dir files ->
  (forall p, p ∈ rel_paths -> p ∈ files) ->
  exists fuel,
    collect_dependency_graph E fuel root_dir rel_paths requirements
      module_to_requirement <> OutOfFuel
    /\ forall fuel',
         fuel <= fuel' ->
         collect_dependency_graph E fuel' root_dir rel_paths requirements
           module_to_requirement
         = collect_dependency_graph E fuel root_dir rel_paths requirements
             module_to_requirement.
Proof.
  intros Hclosed Hseeds. unfold collect_dependency_graph.
  destruct (negb _); [by exists 0|].
  destruct (while_stack_terminates E root_dir requirements module_to_requirement
              files Hclosed _ (rev rel_paths) Package.init ∅ (le_n _))
    as [fuel Hfuel].
  { intros p Hp. apply Hseeds. by rewrite list_elem_of_In, in_rev, <- list_elem_of_In. }
  exists fuel. split; [done|]. intros fuel' Hle.
  by apply while_stack_more_fuel.
Qed.

(** The example code base, in which [pkg/a.py] and [pkg/b.py] import each
    other, is closed. *)
Lemma Example_closed :
  closed_codebase Example.tree Example.root_dir
    [Example.main_py; Example.a_py; Example.b_py].
Proof.
  intros rel_pth mfder module_name file module_rel_pth Hin Hload Hmod Hrel.
  assert (module_rel_pth ∈ [Example.main_py; Example.a_py; Example.b_py]
          <-> bool_decide
                (module_rel_pth ∈ [Example.main_py; Example.a_py; Example.b_py])
              = true) as -> by (by rewrite bool_decide_eq_true).
  repeat (apply elem_of_cons in Hin as [->|Hin]);
    [ | | |by apply elem_of_nil in Hin];
    vm_compute in Hload; injection Hload as <-; cbn [modules] in Hmod;
    repeat (apply elem_of_cons in Hmod as [Hmod|Hmod];
            [simplify_eq;
             try (vm_compute in Hrel; injection Hrel as <-; by vm_compute)|]);
    by apply elem_of_nil in Hmod.
Qed.

Lemma collect_dependency_graph_terminates_witness :
  exists fuel,
    collect_dependency_graph Example.tree fuel Example.root_dir [Example.main_py]
      Example.requirements Example.module_to_requirement <> OutOfFuel
    /\ forall fuel',
         fuel <= fuel' ->
         collect_dependency_graph Example.tree fuel' Example.root_dir
           [Example.main_py] Example.requirements Example.module_to_requirement
         = collect_dependency_graph Example.tree fuel Example.root_dir
             [Example.main_py] Example.requirements Example.module_to_requirement.
Proof.
  apply (collect_dependency_graph_terminates Example.tree Example.root_dir
           [Example.main_py] Example.requirements Example.module_to_requirement
           [Example.main_py; Example.a_py; Example.b_py] Example_closed).
  intros p Hp. apply list_elem_of_singleton in Hp as ->. by left.
Defined.

(** * Further properties *)

(** ** resolve_initial_paths: what the result holds *)

Lemma add_subpaths_elements (subpths : list Path) :
  forall acc,
    (forall x, x ∈ acc.2 <-> x ∈ acc.1) ->
    (forall x, x ∈ (add_subpaths subpths acc).2 <-> x ∈ (add_subpaths subpths acc).1)
    /\ forall x, x ∈ (add_subpaths subpths acc).1 <-> x ∈ acc.1 \/ x ∈ subpths.
Proof.
  unfold add_subpaths.
  induction subpths as [|s subpths IH]; intros [result seen] Hseen; simpl in *.
  - split; [done|]. intros x. split; [by left | by intros [?|?%elem_of_nil]].
  - case_bool_decide as Hs.
    + destruct (IH (result ++ [s], {[s]} ∪ seen)) as [Hinv Hel].
      { simpl. intros x. rewrite elem_of_union, elem_of_singleton, elem_of_app,
          list_elem_of_singleton, Hseen. tauto. }
      split; [done|]. intros x. rewrite Hel. simpl.
      rewrite elem_of_app, list_elem_of_singleton, elem_of_cons. tauto.
    + destruct (IH (result, seen) Hseen) as [Hinv Hel].
      split; [done|]. intros x. rewrite Hel. simpl. rewrite elem_of_cons.
      split; [tauto|]. intros [?|[->|?]]; [tauto| |tauto].
      left. apply Hseen. by destruct (decide (s ∈ seen)).
Qed.

Lemma comes_from_cons (E : Env) (pth : Path) (rest : list Path) (x : Path) :
  comes_from E (pth :: rest) x <-> comes_from E [pth] x \/ comes_from E rest x.
Proof.
  unfold comes_from. split.
  - intros [[[-> |Hx]%elem_of_cons Hf]|(dir & [-> |Hd]%elem_of_cons & Hrest)].
    + left. left. split; [by left | done].
    + right. by left.
    + left. right. exists pth. split; [by left | done].
    + right. right. by exists dir.
  - intros [[[Hx Hf]|(dir & Hd & Hrest)]|[[Hx Hf]|(dir & Hd & Hrest)]].
    + apply list_elem_of_singleton in Hx as ->. left. split; [by left | done].
    + apply list_elem_of_singleton in Hd as ->. right. exists pth.
      split; [by left | done].
    + left. split; [by right | done].
    + right. exists dir. split; [by right | done].
Qed.

Lemma resolve_loop_elements (E : Env) (rest : list Path) :
  forall acc acc',
    (forall x, x ∈ acc.2 <-> x ∈ acc.1) ->
    for_each (resolve_step E) rest acc = Ok acc' ->
    (forall x, x ∈ acc'.2 <-> x ∈ acc'.1)
    /\ forall x, x ∈ acc'.1 <-> x ∈ acc.1 \/ comes_from E rest x.
Proof.
  induction rest as [|pth rest IH]; intros acc acc' Hseen.
  - intros [= <-]. split; [done|]. intros x. split; [by left|].
    intros [?|[[?%elem_of_nil _]|(dir & ?%elem_of_nil & _)]]; done.
  - cbn [for_each]. destruct (resolve_step E acc pth) as [acc1|] eqn:Hstep; [|done].
    cbn [bind]. intros Hrest.
    assert ((forall x, x ∈ acc1.2 <-> x ∈ acc1.1)
            /\ forall x, x ∈ acc1.1 <-> x ∈ acc.1 \/ comes_from E [pth] x)
      as [Hseen1 Hel1].
    { destruct acc as [result seen]. unfold resolve_step in Hstep.
      destruct (is_file E pth) eqn:Hfile.
      - injection Hstep as <-. simpl in *. split.
        + intros x. rewrite elem_of_union, elem_of_singleton, elem_of_app,
            list_elem_of_singleton, Hseen. tauto.
        + intros x. rewrite elem_of_app, list_elem_of_singleton. split.
          * intros [?| ->]; [by left|]. right. left. split; [by left | done].
          * intros [?|[[->%list_elem_of_singleton _]
                      |(dir & ->%list_elem_of_singleton & ? & _)]];
              [by left | by right | congruence].
      - destruct (is_dir E pth) eqn:Hdir; [|done]. injection Hstep as <-.
        destruct (add_subpaths_elements (sorted (glob_py E pth)) (result, seen) Hseen)
          as [Hinv Hel].
        split; [done|]. intros x. rewrite Hel, elem_of_sorted. simpl. split.
        + intros [?|?]; [by left|]. right. right. exists pth.
          split; [by left | done].
        + intros [?|[[->%list_elem_of_singleton ?]
                    |(dir & ->%list_elem_of_singleton & _ & _ & ?)]];
            [by left | congruence | by right]. }
    destruct (IH acc1 acc' Hseen1 Hrest) as [Hseen' Hel'].
    split; [done|]. intros x. rewrite Hel', Hel1, (comes_from_cons E pth rest x).
    tauto.
Qed.

(** X1: The result holds the initial paths that are files and the Python files
    below the initial paths that are directories, and nothing else. *)
Theorem resolve_initial_paths_elements (E : Env) (initial_paths result : list Path) :
  resolve_initial_paths E initial_paths = Ok result ->
  forall x,
    x ∈ result
    <-> (x ∈ initial_paths /\ is_file E x = true)
        \/ exists dir,
             dir ∈ initial_paths /\ is_file E dir = false /\ is_dir E dir = true
             /\ x ∈ glob_py E dir.
Proof.
  intros Hbody%resolve_initial_paths_returns_body x.
  unfold resolve_initial_paths_body in Hbody.
  destruct initial_paths as [|pth rest].
  - injection Hbody as <-. split; [by intros ?%elem_of_nil|].
    intros [[?%elem_of_nil _]|(dir & ?%elem_of_nil & _)]; done.
  - destruct (for_each _ _ _) as [acc|] eqn:Hloop; [|done]. injection Hbody as <-.
    apply resolve_loop_elements in Hloop as [_ Hel].
    + rewrite Hel. simpl. split; [|by right]. by intros [?%elem_of_nil|?].
    + simpl. intros y. split; [by intros ?%not_elem_of_empty | by intros ?%elem_of_nil].
Qed.

Lemma resolve_initial_paths_elements_witness :
  resolve_initial_paths Example.tree [Example.dir_pkg; Example.file_main]
  = Ok [Example.file_a; Example.file_b; Example.file_main]
  /\ (Example.file_b ∈ [Example.file_a; Example.file_b; Example.file_main]
      <-> (Example.file_b ∈ [Example.dir_pkg; Example.file_main]
           /\ is_file Example.tree Example.file_b = true)
          \/ exists dir,
               dir ∈ [Example.dir_pkg; Example.file_main]
               /\ is_file Example.tree dir = false
               /\ is_dir Example.tree dir = true
               /\ Example.file_b ∈ glob_py Example.tree dir).
Proof.
  split; [vm_compute; reflexivity|].
  apply (resolve_initial_paths_elements Example.tree
           [Example.dir_pkg; Example.file_main]).
  vm_compute. reflexivity.
Defined.

(** ** resolve_initial_paths: files only, and unsupported paths *)

Lemma resolve_loop_files (E : Env) (paths : list Path) :
  forall result seen,
    Forall (fun pth => is_file E pth = true) paths ->
    exists seen',
      for_each (resolve_step E) paths (result, seen) = Ok (result ++ paths, seen').
Proof.
  induction paths as [|pth paths IH]; intros result seen Hfiles.
  - exists seen. by rewrite app_nil_r.
  - apply Forall_cons in Hfiles as [Hfile Hfiles].
    cbn [for_each]. unfold resolve_step at 1. rewrite Hfile. cbn [bind].
    destruct (IH (result ++ [pth]) ({[pth]} ∪ seen) Hfiles) as [seen' ->].
    exists seen'. by rewrite <- app_assoc.
Qed.

(** X2: Initial paths that are all absolute files are returned as they are, in
    their order and with their repetitions. *)
Theorem resolve_initial_paths_files (E : Env) (initial_paths : list Path) :
  Forall (fun pth => is_absolute pth = true) initial_paths ->
  Forall (fun pth => is_file E pth = true) initial_paths ->
  resolve_initial_paths E initial_paths = Ok initial_paths.
Proof.
  intros Habs Hfiles. unfold resolve_initial_paths.
  assert (forallb is_absolute initial_paths = true) as Habs'
    by (apply forallb_forall; intros x Hx%list_elem_of_In;
        by eapply Forall_forall in Habs).
  assert (forallb (is_file E) initial_paths = true) as Hfiles'
    by (apply forallb_forall; intros x Hx%list_elem_of_In;
        by eapply Forall_forall in Hfiles).
  rewrite Habs'. cbn [negb].
  assert (resolve_initial_paths_body E initial_paths = Ok initial_paths) as ->.
  { unfold resolve_initial_paths_body. destruct initial_paths as [|pth rest]; [done|].
    destruct (resolve_loop_files E (pth :: rest) [] ∅ Hfiles) as [seen' ->]. done. }
  cbn [bind]. rewrite Habs', Hfiles'.
  assert (resolve_post_length initial_paths initial_paths = true) as ->; [|done].
  destruct initial_paths; [done|]. cbn [resolve_post_length]. by apply Nat.leb_le.
Qed.

Lemma resolve_initial_paths_files_witness :
  resolve_initial_paths Example.tree
    [Example.file_main; Example.file_a; Example.file_main]
  = Ok [Example.file_main; Example.file_a; Example.file_main].
Proof.
  apply (resolve_initial_paths_files Example.tree
           [Example.file_main; Example.file_a; Example.file_main]).
  - repeat constructor.
  - repeat constructor.
Defined.

Lemma resolve_loop_unhandled (E : Env) (good : list Path) (bad : Path)
    (rest : list Path) :
  Forall (fun pth => is_file E pth = true \/ is_dir E pth = true) good ->
  is_file E bad = false -> is_dir E bad = false ->
  forall acc,
    for_each (resolve_step E) (good ++ bad :: rest) acc
    = Raise (NotImplementedError
               ("Unhandled path, not a directory nor a file: " +:+ as_posix bad)).
Proof.
  intros Hgood Hfile Hdir. induction Hgood as [|pth good Hpth _ IH]; intros [result seen].
  - cbn [app for_each]. unfold resolve_step. by rewrite Hfile, Hdir.
  - cbn [app for_each]. unfold resolve_step at 1.
    destruct (is_file E pth) eqn:Hf; cbn [bind]; [apply IH|].
    destruct (is_dir E pth) eqn:Hd; cbn [bind]; [apply IH|].
    by destruct Hpth.
Qed.

(** X3: An absolute initial path that is neither a file nor a directory makes
    the call raise [NotImplementedError] naming the first such path, whatever
    the other paths are; no partial result is returned. *)
Theorem resolve_initial_paths_unhandled (E : Env) (good : list Path) (bad : Path)
    (rest : list Path) :
  Forall (fun pth => is_absolute pth = true) (good ++ bad :: rest) ->
  Forall (fun pth => is_file E pth = true \/ is_dir E pth = true) good ->
  is_file E bad = false -> is_dir E bad = false ->
  resolve_initial_paths E (good ++ bad :: rest)
  = Raise (NotImplementedError
             ("Unhandled path, not a directory nor a file: " +:+ as_posix bad)).
Proof.
  intros Habs Hgood Hfile Hdir. unfold resolve_initial_paths.
  assert (forallb is_absolute (good ++ bad :: rest) = true) as ->
    by (apply forallb_forall; intros x Hx%list_elem_of_In;
        by eapply Forall_forall in Habs).
  cbn [negb]. unfold resolve_initial_paths_body.
  rewrite (resolve_loop_unhandled E good bad rest Hgood Hfile Hdir).
  by destruct good.
Qed.

Lemma resolve_initial_paths_unhandled_witness :
  resolve_initial_paths Example.tree
    [Example.dir_pkg; ["/"; "dev"; "null"]; Example.file_main]
  = Raise (NotImplementedError
             "Unhandled path, not a directory nor a file: /dev/null").
Proof.
  apply (resolve_initial_paths_unhandled Example.tree
           [Example.dir_pkg] ["/"; "dev"; "null"] [Example.file_main]).
  - repeat constructor.
  - constructor; [right; vm_compute; reflexivity | constructor].
  - vm_compute. reflexivity.
  - vm_compute. reflexivity.
Defined.

(** ** parse_requirements: the mapping it returns, and its errors *)

Lemma NoDup_first_occurrences (names : list string) :
  NoDup (first_occurrences names).
Proof.
  induction names as [|n names IH]; cbn [first_occurrences]; [apply NoDup_nil_2|].
  apply NoDup_cons. split; [|by apply NoDup_filter].
  by intros [? _]%list_elem_of_filter.
Qed.

Lemma elem_of_first_occurrences (names : list string) (n : string) :
  n ∈ first_occurrences names <-> n ∈ names.
Proof.
  induction names as [|m names IH]; cbn [first_occurrences]; [done|].
  rewrite !elem_of_cons, list_elem_of_filter, IH.
  destruct (decide (n = m)); tauto.
Qed.

Lemma OrderedDict_get_keys {V : Type} (d : OrderedDict.t V) (k : string) :
  is_Some (OrderedDict.get d k) <-> k ∈ OrderedDict.keys d.
Proof.
  rewrite <- OrderedDict_contains_keys. unfold OrderedDict.contains.
  destruct (OrderedDict.get d k) as [v|]; split;
    [done | by eexists | by intros [? ?] | done].
Qed.

Lemma parse_requirements_loop_values (events : list parse_event) (filename : string) :
  forall acc d,
    (forall k r, OrderedDict.get acc k = Some r ->
       Requirement.name r = k /\ Requirement.invariant_name r = true
       /\ Requirement.invariant_line r = true) ->
    parse_requirements_loop events filename acc = Ok d ->
    forall k r, OrderedDict.get d k = Some r ->
      Requirement.name r = k /\ Requirement.invariant_name r = true
      /\ Requirement.invariant_line r = true.
Proof.
  induction events as [|[req|] events IH]; intros acc d Hacc.
  - by intros [= <-].
  - cbn [parse_requirements_loop].
    destruct (req_name req) as [n|] eqn:Hn; [|done].
    rewrite Requirement_new_init.
    destruct (String.eqb (strip n) n) eqn:Hstrip; [|done]. cbn [bind].
    apply IH. intros k r. rewrite OrderedDict_get_setitem.
    cbn [Requirement.init Requirement.name]. case_decide as Hk; [|apply Hacc].
    intros [= <-]. subst k. split; [done|]. split; [done|].
    unfold Requirement.invariant_line. cbn [Requirement.init Requirement.line].
    destruct (endswith (req_line req) LF) eqn:Hend; [done | apply endswith_app].
  - done.
Qed.

Lemma parse_requirements_post_get (d : OrderedDict.t Requirement.t) :
  (forall k r, k ∈ OrderedDict.keys d -> OrderedDict.get d k = Some r ->
     Requirement.name r = k) ->
  NoDup (OrderedDict.keys d) ->
  parse_requirements_post d = true.
Proof.
  unfold parse_requirements_post, OrderedDict.keys.
  induction d as [|[k r] d IH]; intros Hget Hnd; [done|].
  cbn [forallb map fst] in *. apply NoDup_cons in Hnd as [Hk Hnd].
  apply andb_true_iff. split.
  - apply String.eqb_eq, Hget; [by left|]. simpl. by rewrite String.eqb_refl.
  - apply IH; [|done]. intros k' r' Hin Hget'. apply Hget; [by right|].
    simpl. destruct (String.eqb k k') eqn:Heq; [|done].
    apply String.eqb_eq in Heq. by subst.
Qed.

Lemma parse_requirements_body_invariants (E : Env) (text filename : string)
    (d : OrderedDict.t Requirement.t) :
  parse_requirements_body E text filename = Ok d ->
  NoDup (OrderedDict.keys d)
  /\ forall k r,
       OrderedDict.get d k = Some r ->
       Requirement.name r = k /\ Requirement.invariant_name r = true
       /\ Requirement.invariant_line r = true.
Proof.
  intros Hd. split.
  - apply parse_requirements_loop_spec in Hd as (Hkeys & _ & _).
    rewrite Hkeys. cbn [OrderedDict.keys map app].
    apply NoDup_filter, NoDup_first_occurrences.
  - unfold parse_requirements_body in Hd.
    apply (parse_requirements_loop_values
             (requirements_parser_parse E text) filename [] d); [|exact Hd].
    intros k r. cbn [OrderedDict.get]. discriminate.
Qed.

Lemma parse_requirements_eq_body (E : Env) (text filename : string) :
  parse_requirements E text filename = parse_requirements_body E text filename.
Proof.
  unfold parse_requirements.
  destruct (parse_requirements_body E text filename) as [d|] eqn:Hd; [|done].
  cbn [bind]. destruct (parse_requirements_body_invariants _ _ _ _ Hd) as [Hnd Hget].
  rewrite parse_requirements_post_get; [done| |done].
  intros k r _ Hr. by destruct (Hget k r Hr).
Qed.

(** X4: The postcondition of [parse_requirements] never fails: the decorated
    function returns or raises what its body does. *)
Theorem parse_requirements_postcondition_holds (E : Env) (text filename : string) :
  parse_requirements E text filename = parse_requirements_body E text filename.
Proof. apply parse_requirements_eq_body. Qed.

(** X5: Every requirement of the returned mapping is stored under its own name,
    which carries no surrounding whitespace; its line ends with a line feed;
    and no name is a key twice. *)
Theorem parse_requirements_well_formed (E : Env) (text filename : string)
    (d : OrderedDict.t Requirement.t) :
  parse_requirements E text filename = Ok d ->
  NoDup (OrderedDict.keys d)
  /\ forall k r,
       OrderedDict.get d k = Some r ->
       Requirement.name r = k /\ strip k = k
       /\ endswith (Requirement.line r) LF = true.
Proof.
  rewrite parse_requirements_eq_body. intros Hd.
  destruct (parse_requirements_body_invariants _ _ _ _ Hd) as [Hnd Hget].
  split; [done|].
  intros k r Hr. destruct (Hget k r Hr) as (Hname & Hinv & Hline).
  split; [done|]. split; [|done].
  unfold Requirement.invariant_name in Hinv. rewrite Hname in Hinv.
  by apply String.eqb_eq.
Qed.

Lemma parse_requirements_well_formed_witness :
  parse_requirements (Fixture.env [] [] [] [])
    ("  pillow==5.2.0  " +:+ LF +:+ "# pinned" +:+ LF +:+ "numpy >=1.0") "<unknown>"
  = Ok [("pillow", Requirement.init "pillow" "pillow==5.2.0");
        ("numpy", Requirement.init "numpy" "numpy >=1.0")]
  /\ NoDup (OrderedDict.keys
              [("pillow", Requirement.init "pillow" "pillow==5.2.0");
               ("numpy", Requirement.init "numpy" "numpy >=1.0")]).
Proof.
  split; [vm_compute; reflexivity|].
  apply (parse_requirements_well_formed (Fixture.env [] [] [] [])
           ("  pillow==5.2.0  " +:+ LF +:+ "# pinned" +:+ LF +:+ "numpy >=1.0")
           "<unknown>").
  vm_compute. reflexivity.
Defined.

Lemma parse_requirements_loop_app (good events : list parse_event)
    (filename : string) :
  Forall well_named good ->
  forall acc, exists acc',
    parse_requirements_loop (good ++ events) filename acc
    = parse_requirements_loop events filename acc'.
Proof.
  intros Hgood. induction Hgood as [|[req|] good Hev _ IH]; intros acc.
  - by exists acc.
  - destruct Hev as (name & Hname & Hstrip).
    cbn [app parse_requirements_loop]. rewrite Hname, Requirement_new_init.
    apply String.eqb_eq in Hstrip. rewrite Hstrip. cbn [bind]. apply IH.
  - done.
Qed.

(** X6: The first requirement without a name, and the first error of the
    parser, end the call with a [ValueError] that names the file (and the
    line without a name); the requirements parsed before are dropped. *)
Theorem parse_requirements_errors (E : Env) (text filename : string)
    (good : list parse_event) (event : parse_event) (rest : list parse_event) :
  requirements_parser_parse E text = good ++ event :: rest ->
  Forall well_named good ->
  (event = RequirementParseError ->
   parse_requirements E text filename
   = Raise (ValueError ("Invalid requirements in file " +:+ filename)))
  /\ (forall req,
        event = Yield req -> req_name req = None ->
        parse_requirements E text filename
        = Raise (ValueError
                   ("The name is missing in the requirement from the file "
                      +:+ filename +:+ ": " +:+ req_line req
                      +:+ " (did you specify the egg fragment?)"))).
Proof.
  intros Hparse Hgood.
  destruct (parse_requirements_loop_app good (event :: rest) filename Hgood [])
    as [acc' Hloop].
  unfold parse_requirements, parse_requirements_body. rewrite Hparse, Hloop.
  split.
  - by intros ->.
  - intros req -> Hname. cbn [parse_requirements_loop]. by rewrite Hname.
Qed.

Lemma parse_requirements_errors_witness :
  parse_requirements (Fixture.env [] [] [] [])
    ("pillow==5.2.0" +:+ LF +:+ "==1.0" +:+ LF +:+ "numpy") "requirements.txt"
  = Raise (ValueError "Invalid requirements in file requirements.txt").
Proof.
  apply (parse_requirements_errors (Fixture.env [] [] [] [])
           ("pillow==5.2.0" +:+ LF +:+ "==1.0" +:+ LF +:+ "numpy")
           "requirements.txt"
           [Yield {| req_name := Some "pillow"; req_line := "pillow==5.2.0" |}]
           RequirementParseError []).
  - vm_compute. reflexivity.
  - constructor; [|constructor]. exists "pillow". split; vm_compute; reflexivity.
  - reflexivity.
Defined.

(** ** parse_module_to_requirement *)

(** X7: A text with a row that does not have two fields raises a [ValueError]
    for the first such row, whatever follows it; the message is built from
    the number of rows in front of it. *)
Theorem parse_module_to_requirement_first_malformed (E : Env)
    (text filename : string) (good : list (list string)) (row : list string)
    (rest : list (list string)) :
  csv_reader E text = good ++ row :: rest ->
  Forall (fun r => length r = 2) good ->
  length row <> 2 ->
  parse_module_to_requirement E text filename
  = Raise (ValueError (two_columns_message E (length good) row filename)).
Proof.
  intros Hrows Hgood Hrow.
  unfold parse_module_to_requirement, parse_module_to_requirement_body.
  by rewrite Hrows, (parse_module_to_requirement_first_bad_row E filename good row
                       rest Hgood Hrow 0 []).
Qed.

Lemma parse_module_to_requirement_first_malformed_witness :
  parse_module_to_requirement Example.tree
    ("PIL" +:+ TAB +:+ "pillow" +:+ LF +:+ LF +:+ "yaml" +:+ TAB +:+ "pyyaml")
    "map.tsv"
  = Raise (ValueError "Expected two columns, but got 2 on line 0 in map.tsv: []").
Proof.
  apply (parse_module_to_requirement_first_malformed Example.tree
           ("PIL" +:+ TAB +:+ "pillow" +:+ LF +:+ LF +:+ "yaml" +:+ TAB +:+ "pyyaml")
           "map.tsv" [["PIL"; "pillow"]] [] [["yaml"; "pyyaml"]]).
  - vm_compute. reflexivity.
  - repeat constructor.
  - discriminate.
Defined.

Lemma OrderedDict_setitem_Forall {V : Type} (P : string * V -> Prop)
    (d : OrderedDict.t V) (k : string) (v : V) :
  Forall P d -> P (k, v) -> Forall P (OrderedDict.setitem k v d).
Proof.
  intros Hd Hkv. induction Hd as [|[k0 v0] d H0 Hd IH]; cbn [OrderedDict.setitem].
  - by constructor.
  - destruct (String.eqb k0 k) eqn:Hk.
    + apply String.eqb_eq in Hk. subst. by constructor.
    + by constructor.
Qed.

Lemma parse_module_to_requirement_loop_pairs (E : Env) (filename : string)
    (pairs : list (string * string)) :
  forall i acc,
    exists d,
      parse_module_to_requirement_loop E ((fun p => [p.1; p.2]) <$> pairs) i
        filename acc = Ok d
      /\ OrderedDict.keys d
         = OrderedDict.keys acc
             ++ filter (fun n => n ∉ OrderedDict.keys acc)
                  (first_occurrences (fst <$> pairs))
      /\ (forall m,
            OrderedDict.get d m
            = match last (snd <$> filter (fun p => p.1 = m) pairs) with
              | Some r => Some r
              | None => OrderedDict.get acc m
              end)
      /\ (forall P : string * string -> Prop,
            Forall P acc -> Forall P pairs -> Forall P d).
Proof.
  induction pairs as [|[m r] pairs IH]; intros i acc.
  - exists acc. split; [done|]. cbn. rewrite app_nil_r. by repeat split.
  - cbn [fmap list_fmap fst snd parse_module_to_requirement_loop].
    destruct (IH (S i) (OrderedDict.setitem m r acc))
      as (d & Hloop & Hkeys & Hget & Hall).
    exists d. split; [exact Hloop|]. split; [|split].
    + rewrite Hkeys, OrderedDict_keys_setitem. cbn [first_occurrences].
      change (list_fmap _ _ fst pairs) with (fst <$> pairs).
      set (ks := OrderedDict.keys acc).
      set (fo := first_occurrences _). clearbody ks fo.
      destruct (decide (m ∈ ks)) as [Hin|Hin].
      * rewrite filter_cons, decide_False by tauto.
        rewrite list_filter_filter. f_equal. apply list_filter_iff.
        intros x. split; [|tauto]. intros Hx. split; [done|]. congruence.
      * rewrite filter_cons, decide_True by done.
        rewrite <- app_assoc. cbn [app]. do 2 f_equal.
        rewrite list_filter_filter. apply list_filter_iff.
        intros x. rewrite elem_of_app, list_elem_of_singleton. tauto.
    + intros m'. rewrite Hget, OrderedDict_get_setitem, filter_cons. cbn [fst].
      destruct (decide (m = m')) as [->|Hne].
      * rewrite fmap_cons, last_cons. cbn [snd]. by destruct (last _).
      * done.
    + intros P Hacc Hpairs. apply Forall_cons in Hpairs as [Hp Hpairs].
      apply Hall; [|done]. by apply OrderedDict_setitem_Forall.
Qed.

(** X8: When every row has two fields and no field ends with a line feed, the
    call returns a mapping: a module named in several rows is mapped to the
    requirement of its last row, and the keys stand in the order in which the
    modules are first named. *)
Theorem parse_module_to_requirement_last_row (E : Env) (text filename : string)
    (pairs : list (string * string)) :
  csv_reader E text = (fun p => [p.1; p.2]) <$> pairs ->
  Forall (fun p => endswith p.1 LF = false /\ endswith p.2 LF = false) pairs ->
  exists d,
    parse_module_to_requirement E text filename = Ok d
    /\ OrderedDict.keys d = first_occurrences (fst <$> pairs)
    /\ forall m,
         OrderedDict.get d m = last (snd <$> filter (fun p => p.1 = m) pairs).
Proof.
  intros Hrows Hfields.
  destruct (parse_module_to_requirement_loop_pairs E filename pairs 0 [])
    as (d & Hloop & Hkeys & Hget & Hall).
  exists d. split; [|split].
  - unfold parse_module_to_requirement, parse_module_to_requirement_body.
    rewrite Hrows, Hloop. cbn [bind].
    specialize (Hall _ (Forall_nil_2 _) Hfields).
    assert (forallb (fun val => negb (endswith val LF)) (OrderedDict.values d) = true)
      as ->.
    { apply forallb_forall. intros v Hv. apply in_map_iff in Hv as ([k v'] & <- & Hin).
      apply list_elem_of_In in Hin. eapply Forall_forall in Hall; [|done].
      cbn in *. destruct Hall as [_ ->]. done. }
    assert (forallb (fun key => negb (endswith key LF)) (OrderedDict.keys d) = true)
      as ->; [|done].
    apply forallb_forall. intros k Hk. apply in_map_iff in Hk as ([k' v] & <- & Hin).
    apply list_elem_of_In in Hin. eapply Forall_forall in Hall; [|done].
    cbn in *. destruct Hall as [-> _]. done.
  - rewrite Hkeys. cbn [OrderedDict.keys map app].
    set (fo := first_occurrences _). clearbody fo. clear.
    induction fo as [|x fo IH]; [done|].
    rewrite filter_cons, decide_True by apply not_elem_of_nil. by rewrite IH.
  - intros m. rewrite Hget. by destruct (last _).
Qed.

Lemma parse_module_to_requirement_last_row_witness :
  exists d,
    parse_module_to_requirement Example.tree
      ("PIL" +:+ TAB +:+ "pil" +:+ LF +:+ "yaml" +:+ TAB +:+ "pyyaml" +:+ LF
         +:+ "PIL" +:+ TAB +:+ "pillow") "<unknown>" = Ok d
    /\ OrderedDict.keys d = ["PIL"; "yaml"]
    /\ forall m,
         OrderedDict.get d m
         = last (snd <$> filter (fun p => p.1 = m)
                           [("PIL", "pil"); ("yaml", "pyyaml"); ("PIL", "pillow")]).
Proof.
  apply (parse_module_to_requirement_last_row Example.tree
           ("PIL" +:+ TAB +:+ "pil" +:+ LF +:+ "yaml" +:+ TAB +:+ "pyyaml" +:+ LF
              +:+ "PIL" +:+ TAB +:+ "pillow") "<unknown>"
           [("PIL", "pil"); ("yaml", "pyyaml"); ("PIL", "pillow")]).
  - vm_compute. reflexivity.
  - repeat constructor.
Defined.

(** ** missing_requirements *)

Lemma missing_requirements_fold (requirements : OrderedDict.t Requirement.t)
    (names : list string) :
  forall result,
    fold_left (missing_requirements_step requirements) names (result, ∅)
    = (result ++ filter (fun n => OrderedDict.contains requirements n = false) names,
       ∅).
Proof.
  induction names as [|n names IH]; intros result; cbn [fold_left].
  - by rewrite app_nil_r.
  - unfold missing_requirements_step at 2. rewrite filter_cons.
    rewrite (bool_decide_eq_true_2 (n ∉ (∅ : gset string)))
      by apply not_elem_of_empty.
    rewrite andb_true_r.
    destruct (OrderedDict.contains requirements n) eqn:Hn; cbn [negb].
    + rewrite decide_False by done. apply IH.
    + rewrite decide_True by done. rewrite IH, <- app_assoc. done.
Qed.

(** X9: The result lists, in the order of the module map and once per module,
    the requirement names of the map that the requirements do not hold; it
    is empty exactly when the requirements hold every name of the map. *)
Theorem missing_requirements_filter (module_to_requirement : OrderedDict.t string)
    (requirements : OrderedDict.t Requirement.t) :
  missing_requirements module_to_requirement requirements
  = filter (fun n => OrderedDict.contains requirements n = false)
      (OrderedDict.values module_to_requirement)
  /\ (no_missing_requirements module_to_requirement requirements = true
      <-> forall n, n ∈ OrderedDict.values module_to_requirement ->
            OrderedDict.contains requirements n = true).
Proof.
  assert (missing_requirements module_to_requirement requirements
          = filter (fun n => OrderedDict.contains requirements n = false)
              (OrderedDict.values module_to_requirement)) as Heq.
  { unfold missing_requirements. by rewrite missing_requirements_fold. }
  split; [done|]. unfold no_missing_requirements. rewrite Heq.
  set (names := OrderedDict.values module_to_requirement). clearbody names.
  split.
  - intros Hnil n Hn.
    destruct (OrderedDict.contains requirements n) eqn:Hc; [done|].
    assert (n ∈ filter (fun n => OrderedDict.contains requirements n = false) names)
      as Hin by (by apply list_elem_of_filter).
    destruct (filter _ names); [by apply elem_of_nil in Hin | done].
  - intros Hall.
    destruct (filter _ names) as [|n l] eqn:Hf; [done|].
    assert (n ∈ filter (fun n => OrderedDict.contains requirements n = false) names)
      as [Hc Hn]%list_elem_of_filter by (rewrite Hf; by left).
    rewrite Hall in Hc; done.
Qed.

(** ** collect_dependency_graph: the closure it computes *)

Lemma modules_loop_stack (E : Env) (root_dir rel_pth : Path)
    (mods : list (string * Module)) :
  forall pkg stk acc',
    for_each (visit_module E root_dir rel_pth) mods (pkg, stk) = Ok acc' ->
    (forall x, x ∈ stk -> x ∈ acc'.2)
    /\ forall module_name file,
         (module_name, {| module_file := Some file |}) ∈ mods ->
         exists r, relative_to file root_dir = Some r /\ r ∈ acc'.2.
Proof.
  induction mods as [|[module_name [file]] mods IH]; intros pkg stk acc'.
  - intros [= <-]. split; [done|]. by intros m f ?%elem_of_nil.
  - cbn [for_each]. unfold visit_module at 1. cbn [module_file].
    destruct file as [file|].
    + destruct (relative_to file root_dir) as [module_rel_pth|] eqn:Hrel; [|done].
      cbn [bind]. intros [Hstk Hmods]%IH. split.
      * intros x Hx. apply Hstk. by right.
      * intros m f [Heq|Hin]%elem_of_cons; [|by apply (Hmods m f)].
        injection Heq as -> ->. exists module_rel_pth. split; [done|].
        apply Hstk. by left.
    + destruct (bool_decide (module_name ∉ _STDLIB_SET E)); [done|].
      cbn [bind]. intros [Hstk Hmods]%IH. split; [done|].
      intros m f [Heq|Hin]%elem_of_cons; [done | by apply (Hmods m f)].
Qed.

Lemma OrderedDict_contains_get {V : Type} (d : OrderedDict.t V) (k : string) :
  OrderedDict.contains d k = true <-> is_Some (OrderedDict.get d k).
Proof.
  unfold OrderedDict.contains.
  destruct (OrderedDict.get d k) as [v|]; split;
    [by eexists | done | done | by intros [? ?]].
Qed.

Lemma OrderedDict_get_values {V : Type} (d : OrderedDict.t V) (k : string) (v : V) :
  OrderedDict.get d k = Some v -> v ∈ OrderedDict.values d.
Proof.
  unfold OrderedDict.values. induction d as [|[k0 v0] d IH]; [done|]. simpl.
  destruct (String.eqb k0 k).
  - intros [= ->]. by left.
  - intros ?%IH. by right.
Qed.

(** What the loop over [badmodules] does to [package.requirements]. *)
Lemma badmodules_loop_requirements (E : Env)
    (requirements : OrderedDict.t Requirement.t)
    (module_to_requirement : OrderedDict.t string) (rel_pth : Path)
    (names : list string) :
  forall pkg uset acc',
    for_each (visit_badmodule E requirements module_to_requirement rel_pth)
      names (pkg, uset) = Ok acc' ->
    (forall k r,
       OrderedDict.get (Package.requirements pkg) k = Some r ->
       OrderedDict.get (Package.requirements acc'.1) k = Some r)
    /\ (forall k r,
          OrderedDict.get (Package.requirements acc'.1) k = Some r ->
          OrderedDict.get (Package.requirements pkg) k = Some r
          \/ (OrderedDict.get requirements k = Some r
              /\ exists m, m ∈ names
                   /\ OrderedDict.get module_to_requirement m = Some k))
    /\ (forall m k,
          m ∈ names -> OrderedDict.get module_to_requirement m = Some k ->
          is_Some (OrderedDict.get (Package.requirements acc'.1) k)).
Proof.
  induction names as [|n names IH]; intros pkg uset acc'.
  - intros [= <-]. split; [done|]. split; [by left|]. by intros m k ?%elem_of_nil.
  - cbn [for_each].
    destruct (visit_badmodule _ _ _ _ _ n) as [[pkg1 uset1]|] eqn:Hstep; [|done].
    cbn [bind]. intros (Hmono & Hsound & Hcompl)%IH. cbn [fst] in *.
    unfold visit_badmodule in Hstep.
    assert ((forall k r,
               OrderedDict.get (Package.requirements pkg) k = Some r ->
               OrderedDict.get (Package.requirements pkg1) k = Some r)
            /\ (forall k r,
                  OrderedDict.get (Package.requirements pkg1) k = Some r ->
                  OrderedDict.get (Package.requirements pkg) k = Some r
                  \/ (OrderedDict.get requirements k = Some r
                      /\ OrderedDict.get module_to_requirement n = Some k))
            /\ (forall k,
                  OrderedDict.get module_to_requirement n = Some k ->
                  is_Some (OrderedDict.get (Package.requirements pkg1) k)))
      as (Hmono1 & Hsound1 & Hcompl1).
    { destruct (OrderedDict.contains module_to_requirement n) eqn:Hmap.
      - unfold OrderedDict.getitem in Hstep.
        destruct (OrderedDict.get module_to_requirement n) as [req_name|] eqn:Hreq;
          [|done].
        cbn [bind] in Hstep.
        destruct (OrderedDict.contains (Package.requirements pkg) req_name) eqn:Hhas;
          cbn [negb] in Hstep.
        + injection Hstep as <- <-. split; [done|]. split; [by left|].
          intros k [= <-]. by apply OrderedDict_contains_get.
        + destruct (OrderedDict.get requirements req_name) as [req|] eqn:Hreg;
            [|done].
          injection Hstep as <- <-. cbn [Package.requirements].
          assert (OrderedDict.get (Package.requirements pkg) req_name = None) as Hnone.
          { destruct (OrderedDict.get (Package.requirements pkg) req_name) eqn:Hg;
              [|done].
            unfold OrderedDict.contains in Hhas. by rewrite Hg in Hhas. }
          split; [|split].
          * intros k r Hk. rewrite OrderedDict_get_setitem.
            case_decide; [congruence | done].
          * intros k r. rewrite OrderedDict_get_setitem.
            case_decide as Hk; [|by left]. intros [= <-]. subst k. by right.
          * intros k [= <-]. rewrite OrderedDict_get_setitem.
            by rewrite decide_True.
      - assert (pkg1 = pkg \/ Package.requirements pkg1 = Package.requirements pkg)
          as Hsame.
        { repeat case_bool_decide; injection Hstep as <- <-; by right. }
        assert (Package.requirements pkg1 = Package.requirements pkg) as ->
          by (by destruct Hsame as [->|?]).
        split; [done|]. split; [by left|].
        intros k Hk. apply (f_equal is_Some) in Hk.
        assert (OrderedDict.contains module_to_requirement n = true)
          by (apply OrderedDict_contains_get; rewrite Hk; by eexists).
        congruence. }
    split; [|split].
    + intros k r Hk. by apply Hmono, Hmono1.
    + intros k r [Hk|(Hreg & m & Hm & Hmk)]%Hsound.
      * apply Hsound1 in Hk as [Hk|[Hreg Hnk]]; [by left|].
        right. split; [done|]. exists n. split; [by left | done].
      * right. split; [done|]. exists m. split; [by right | done].
    + intros m k [->|Hm]%elem_of_cons Hmk; [|by eapply Hcompl].
      destruct (Hcompl1 k Hmk) as [r Hr]. exists r. by apply Hmono.
Qed.

Lemma closure_inv_initial (E : Env) (root_dir : Path)
    (requirements : OrderedDict.t Requirement.t)
    (module_to_requirement : OrderedDict.t string) (seeds : list Path) :
  closure_inv E root_dir requirements module_to_requirement seeds []
    (initial_state seeds).
Proof.
  assert (forall p, p ∈ rev seeds <-> p ∈ seeds) as Hrev
    by (intros p; rewrite !list_elem_of_In; symmetry; apply in_rev).
  split; cbn [initial_state package stack Package.init Package.rel_paths
                Package.requirements].
  - intros p. split; [by intros ?%not_elem_of_empty | by intros ?%elem_of_nil].
  - apply NoDup_nil_2.
  - by intros p ?%elem_of_nil.
  - intros p [?%elem_of_nil|Hp%Hrev]; [done|]. by apply reachable_initial.
  - intros p Hp. right. by apply Hrev.
  - by intros p mfder m f ?%elem_of_nil.
  - intros k r. cbn. discriminate.
  - by intros p k ?%elem_of_nil.
Qed.

Lemma closure_inv_step (E : Env) (root_dir : Path)
    (requirements : OrderedDict.t Requirement.t)
    (module_to_requirement : OrderedDict.t string)
    (seeds log : list Path) (st st' : LoopState) (rel_pth : Path)
    (rest : list Path) :
  closure_inv E root_dir requirements module_to_requirement seeds log st ->
  stack st = rel_pth :: rest ->
  loop_iteration E root_dir requirements module_to_requirement st rel_pth rest
  = Ok st' ->
  closure_inv E root_dir requirements module_to_requirement seeds
    (log ++ if is_visit st rel_pth then [rel_pth] else []) st'.
Proof.
  intros [Hpaths Hnd Hrel Hreach Hseeds Hclosed Hsound Hcompl] Hstack Hok.
  rewrite Hstack in *. unfold is_visit.
  destruct (decide (rel_pth ∈ Package.rel_paths (package st))) as [Hold|Hnew].
  - (* the path was visited before *)
    apply loop_iteration_revisit in Hok as [-> ->]; [|done].
    rewrite bool_decide_eq_false_2 by auto. cbn [negb andb].
    rewrite app_nil_r. apply Hpaths in Hold.
    split; cbn [package stack]; try done.
    + intros p [Hp|Hp]; apply Hreach; [by left | right; by right].
    + intros p [Hp|[->|Hp]%elem_of_cons]%Hseeds; [by left | by left | by right].
    + intros p mfder m f Hp Hload Hin.
      destruct (Hclosed p mfder m f Hp Hload Hin) as (r & Hr & [Hlog|Hstk]).
      * exists r. split; [done | by left].
      * exists r. split; [done|].
        apply elem_of_cons in Hstk as [->|Hstk]; [by left | by right].
  - (* a new path *)
    destruct (loop_iteration_visit _ _ _ _ _ _ _ _ Hnew Hok)
      as (mfder & [pkg1 uset1] & [pkg2 stk2] & Habs & Hload & H1 & H2 & Hsize & ->).
    rewrite Habs, bool_decide_eq_true_2 by done. cbn [negb andb fst snd] in *.
    pose proof (badmodules_loop_requirements _ _ _ _ _ _ _ _ H1)
      as (Hmono & Hsound1 & Hcompl1).
    apply badmodules_loop_spec in H1 as (Hsame & _).
    pose proof (modules_loop_stack _ _ _ _ _ _ _ H2) as [Hrest Hmods].
    apply modules_loop_spec in H2 as (Hreq2 & _ & Hpaths2 & Hstk2).
    cbn [fst snd] in *. rewrite Hsame in Hpaths2.
    destruct (existsb has_file (modules mfder)) eqn:Hex.
    2:{ rewrite Hpaths2 in Hsize. lia. }
    assert (rel_pth ∉ log) as Hfresh by (intros ?%Hpaths; done).
    assert (reachable E root_dir seeds rel_pth) as Hreach_pth
      by (apply Hreach; right; by left).
    split; cbn [package stack]; rewrite ?Hreq2.
    + intros p. rewrite Hpaths2, elem_of_union, elem_of_singleton, elem_of_app,
        list_elem_of_singleton, Hpaths. tauto.
    + apply NoDup_app. split; [done|]. split; [|apply NoDup_singleton].
      by intros p Hp ->%list_elem_of_singleton.
    + intros p [Hp| ->%list_elem_of_singleton]%elem_of_app; [by apply Hrel | done].
    + intros p [[Hp| ->%list_elem_of_singleton]%elem_of_app|Hp]; [| done |].
      * apply Hreach. by left.
      * apply Hstk2 in Hp as [Hp|(m & f & Hin & Hf)].
        -- apply Hreach. right. by right.
        -- by eapply reachable_import.
    + intros p [Hp|[->|Hp]%elem_of_cons]%Hseeds.
      * left. apply elem_of_app. by left.
      * left. apply elem_of_app. right. by left.
      * right. by apply Hrest.
    + intros p mfder' m f [Hp| ->%list_elem_of_singleton]%elem_of_app Hload' Hin.
      * destruct (Hclosed p mfder' m f Hp Hload' Hin) as (r & Hr & [Hlog|Hstk]).
        -- exists r. split; [done|]. left. apply elem_of_app. by left.
        -- exists r. split; [done|].
           apply elem_of_cons in Hstk as [->|Hstk].
           ++ left. apply elem_of_app. right. by left.
           ++ right. by apply Hrest.
      * assert (mfder' = mfder) as -> by congruence.
        destruct (Hmods m f Hin) as (r & Hr & Hin2).
        exists r. split; [done | by right].
    + intros k r [Hk|(Hreg & m & Hm & Hmk)]%Hsound1.
      * destruct (Hsound k r Hk) as (Hreg & p & Hp & Himp).
        split; [done|]. exists p. split; [|done]. apply elem_of_app. by left.
      * split; [done|]. exists rel_pth. split; [apply elem_of_app; right; by left|].
        by exists mfder, m.
    + intros p k [Hp| ->%list_elem_of_singleton]%elem_of_app Himp.
      * destruct (Hcompl p k Hp Himp) as [r Hr]. exists r. by apply Hmono.
      * destruct Himp as (mfder' & m & Hload' & Hm & Hmk).
        assert (mfder' = mfder) as -> by congruence. by apply (Hcompl1 m k).
Qed.

Lemma closure_inv_run (E : Env) (root_dir : Path)
    (requirements : OrderedDict.t Requirement.t)
    (module_to_requirement : OrderedDict.t string) (seeds : list Path)
    (fuel : nat) :
  forall log st pkg,
    closure_inv E root_dir requirements module_to_requirement seeds log st ->
    while_stack E root_dir requirements module_to_requirement fuel st
    = Returned pkg ->
    exists st',
      package st' = pkg /\ stack st' = []
      /\ closure_inv E root_dir requirements module_to_requirement seeds
           (log ++ visit_order E root_dir requirements module_to_requirement fuel st)
           st'.
Proof.
  induction fuel as [|fuel IH]; intros log st pkg Hinv; [done|].
  cbn [while_stack visit_order].
  destruct (stack st) as [|rel_pth rest] eqn:Hstack.
  - intros [= <-]. exists st. by rewrite app_nil_r.
  - destruct (loop_iteration _ _ _ _ _ _ _) as [st'|] eqn:Hstep; [|done].
    intros Hrun. rewrite app_assoc. apply (IH _ st'); [|done].
    by eapply closure_inv_step.
Qed.

Lemma collect_returns_inv (E : Env) (fuel : nat) (root_dir : Path)
    (rel_paths : list Path) (requirements : OrderedDict.t Requirement.t)
    (module_to_requirement : OrderedDict.t string) (pkg : Package.t) :
  collect_dependency_graph E fuel root_dir rel_paths requirements
    module_to_requirement = Returned pkg ->
  exists st,
    package st = pkg /\ stack st = []
    /\ closure_inv E root_dir requirements module_to_requirement rel_paths
         (visit_order E root_dir requirements module_to_requirement fuel
            (initial_state rel_paths)) st.
Proof.
  unfold collect_dependency_graph. destruct (negb _); [done|]. intros Hrun.
  apply (closure_inv_run E root_dir requirements module_to_requirement rel_paths
           fuel [] (initial_state rel_paths) pkg (closure_inv_initial _ _ _ _ _) Hrun).
Qed.

(** X10: The paths of the returned package are the files reached from the
    initial paths: the initial paths themselves and, for every file of the
    package, the files the module finder reports for it, and no other. *)
Theorem collect_rel_paths_reachable (E : Env) (fuel : nat) (root_dir : Path)
    (rel_paths : list Path) (requirements : OrderedDict.t Requirement.t)
    (module_to_requirement : OrderedDict.t string) (pkg : Package.t) :
  collect_dependency_graph E fuel root_dir rel_paths requirements
    module_to_requirement = Returned pkg ->
  forall p, p ∈ Package.rel_paths pkg <-> reachable E root_dir rel_paths p.
Proof.
  intros (st & <- & Hstack & [Hpaths _ _ Hreach Hseeds Hclosed _ _])%collect_returns_inv.
  rewrite Hstack in *. intros p. split.
  - intros Hp%Hpaths. apply Hreach. by left.
  - induction 1 as [p Hp|p mfder m file r _ IH Hload Hin Hrel].
    + apply Hpaths. by destruct (Hseeds p Hp) as [?|?%elem_of_nil].
    + apply Hpaths in IH.
      destruct (Hclosed p mfder m file IH Hload Hin) as (r' & Hr' & [?|?%elem_of_nil]);
        [|done].
      apply Hpaths. congruence.
Qed.

Lemma collect_rel_paths_reachable_witness :
  exists pkg,
    collect_dependency_graph Example.tree 8 Example.root_dir [Example.main_py]
      Example.requirements Example.module_to_requirement = Returned pkg
    /\ (Example.b_py ∈ Package.rel_paths pkg
        <-> reachable Example.tree Example.root_dir [Example.main_py] Example.b_py).
Proof.
  eexists. split; [vm_compute; reflexivity|].
  apply (collect_rel_paths_reachable Example.tree 8 Example.root_dir
           [Example.main_py] Example.requirements Example.module_to_requirement).
  vm_compute. reflexivity.
Defined.

(** X11: The paths of the returned package are the paths the loop ran the module
    finder on; each of them was visited once, and none is absolute. *)
Theorem collect_rel_paths_visited_once (E : Env) (fuel : nat) (root_dir : Path)
    (rel_paths : list Path) (requirements : OrderedDict.t Requirement.t)
    (module_to_requirement : OrderedDict.t string) (pkg : Package.t) :
  collect_dependency_graph E fuel root_dir rel_paths requirements
    module_to_requirement = Returned pkg ->
  Package.rel_paths pkg
  = list_to_set (visit_order E root_dir requirements module_to_requirement fuel
                   (initial_state rel_paths))
  /\ NoDup (visit_order E root_dir requirements module_to_requirement fuel
              (initial_state rel_paths))
  /\ forall p, p ∈ Package.rel_paths pkg -> is_absolute p = false.
Proof.
  intros (st & <- & _ & [Hpaths Hnd Hrel _ _ _ _ _])%collect_returns_inv.
  split; [|split; [done|]].
  - apply set_eq. intros p. by rewrite Hpaths, elem_of_list_to_set.
  - intros p Hp%Hpaths. by apply Hrel.
Qed.

Lemma collect_rel_paths_visited_once_witness :
  exists pkg,
    collect_dependency_graph Example.tree 8 Example.root_dir [Example.main_py]
      Example.requirements Example.module_to_requirement = Returned pkg
    /\ Package.rel_paths pkg
       = list_to_set (visit_order Example.tree Example.root_dir Example.requirements
                        Example.module_to_requirement 8
                        (initial_state [Example.main_py])).
Proof.
  eexists. split; [vm_compute; reflexivity|].
  apply (collect_rel_paths_visited_once Example.tree 8 Example.root_dir
           [Example.main_py] Example.requirements Example.module_to_requirement).
  vm_compute. reflexivity.
Defined.

(** X12: The requirements of the returned package are the entries of the
    requirement registry for the packages that the module map gives to a
    module imported by a file of the package. *)
Theorem collect_requirements_imported (E : Env) (fuel : nat) (root_dir : Path)
    (rel_paths : list Path) (requirements : OrderedDict.t Requirement.t)
    (module_to_requirement : OrderedDict.t string) (pkg : Package.t) :
  collect_dependency_graph E fuel root_dir rel_paths requirements
    module_to_requirement = Returned pkg ->
  forall k r,
    OrderedDict.get (Package.requirements pkg) k = Some r
    <-> OrderedDict.get requirements k = Some r
        /\ exists p,
             p ∈ Package.rel_paths pkg
             /\ imports_requirement E root_dir module_to_requirement p k.
Proof.
  intros (st & <- & _ & [Hpaths _ _ _ _ _ Hsound Hcompl])%collect_returns_inv k r.
  split.
  - intros (Hreg & p & Hp & Himp)%Hsound. split; [done|].
    exists p. split; [by apply Hpaths | done].
  - intros (Hreg & p & Hp%Hpaths & Himp).
    destruct (Hcompl p k Hp Himp) as [r' Hr'].
    destruct (Hsound k r' Hr') as [Hreg' _]. congruence.
Qed.

Lemma collect_requirements_imported_witness :
  exists pkg,
    collect_dependency_graph Example.tree 8 Example.root_dir [Example.main_py]
      Example.requirements Example.module_to_requirement = Returned pkg
    /\ (OrderedDict.get (Package.requirements pkg) "pillow"
        = Some (Requirement.init "pillow" "pillow==5.2.0")
        <-> OrderedDict.get Example.requirements "pillow"
            = Some (Requirement.init "pillow" "pillow==5.2.0")
            /\ exists p,
                 p ∈ Package.rel_paths pkg
                 /\ imports_requirement Example.tree Example.root_dir
                      Example.module_to_requirement p "pillow").
Proof.
  eexists. split; [vm_compute; reflexivity|].
  apply (collect_requirements_imported Example.tree 8 Example.root_dir
           [Example.main_py] Example.requirements Example.module_to_requirement).
  vm_compute. reflexivity.
Defined.

(** ** collect_dependency_graph: its preconditions and postconditions *)

Lemma modules_loop_raises_kind (E : Env) (root_dir rel_pth : Path)
    (mods : list (string * Module)) :
  forall acc e,
    for_each (visit_module E root_dir rel_pth) mods acc = Raise e ->
    (exists msg, e = AssertionError msg) \/ (exists msg, e = ValueError msg).
Proof.
  induction mods as [|[module_name [file]] mods IH]; intros [pkg stk] e; [done|].
  cbn [for_each].
  destruct (visit_module _ _ _ _ _) as [acc1|e1] eqn:Hstep; cbn [bind].
  - apply IH.
  - intros [= <-]. unfold visit_module in Hstep. cbn [module_file] in Hstep.
    destruct file as [file|].
    + destruct (relative_to file root_dir); [done|]. injection Hstep as <-.
      right. by eexists.
    + case_bool_decide; [|done]. injection Hstep as <-. left. by eexists.
Qed.

Lemma no_missing_requirements_contains
    (module_to_requirement : OrderedDict.t string)
    (requirements : OrderedDict.t Requirement.t) :
  no_missing_requirements module_to_requirement requirements = true ->
  forall n, n ∈ OrderedDict.values module_to_requirement ->
    OrderedDict.contains requirements n = true.
Proof.
  unfold no_missing_requirements, missing_requirements.
  rewrite missing_requirements_fold. cbn [fst app]. intros Hnil n Hn.
  destruct (OrderedDict.contains requirements n) eqn:Hc; [done|].
  assert (n ∈ filter (fun n => OrderedDict.contains requirements n = false)
                (OrderedDict.values module_to_requirement))
    as Hin by (by apply list_elem_of_filter).
  destruct (filter _ _); [by apply elem_of_nil in Hin | done].
Qed.

(** X13: When every requirement named by the module map is in the requirement
    registry (the precondition that is only checked under [icontract.SLOW]),
    the loop over [mfder.badmodules] raises nothing, whatever the names are:
    the lookups [module_to_requirement[module_name]] and
    [requirements[req_name]] always succeed. *)
Theorem badmodules_lookups_succeed (E : Env)
    (requirements : OrderedDict.t Requirement.t)
    (module_to_requirement : OrderedDict.t string) (rel_pth : Path)
    (names : list string) :
  no_missing_requirements module_to_requirement requirements = true ->
  forall acc,
    exists acc',
      for_each (visit_badmodule E requirements module_to_requirement rel_pth)
        names acc = Ok acc'.
Proof.
  intros Hpre. pose proof (no_missing_requirements_contains _ _ Hpre) as Hall.
  clear Hpre. induction names as [|n names IH]; intros [pkg uset]; [by eexists|].
  cbn [for_each].
  assert (exists acc1,
            visit_badmodule E requirements module_to_requirement rel_pth
              (pkg, uset) n = Ok acc1) as [acc1 ->].
  { unfold visit_badmodule.
    destruct (OrderedDict.contains module_to_requirement n) eqn:Hmap.
    - apply OrderedDict_contains_get in Hmap as [req_name Hreq].
      unfold OrderedDict.getitem. rewrite Hreq. cbn [bind].
      destruct (negb _); [|by eexists].
      assert (OrderedDict.contains requirements req_name = true) as Hc
        by (eapply Hall, OrderedDict_get_values; done).
      apply OrderedDict_contains_get in Hc as [req ->]. by eexists.
    - repeat case_bool_decide; by eexists. }
  cbn [bind]. apply IH.
Qed.

Lemma badmodules_lookups_succeed_witness :
  exists acc',
    for_each (visit_badmodule Example.tree Example.requirements
                Example.module_to_requirement Example.main_py)
      ["missing"; "PIL.Image"; "os.path"] (Package.init, ∅) = Ok acc'.
Proof.
  apply (badmodules_lookups_succeed Example.tree Example.requirements
           Example.module_to_requirement Example.main_py
           ["missing"; "PIL.Image"; "os.path"]).
  vm_compute. reflexivity.
Defined.

(** Without that precondition the lookup [requirements[req_name]] does
    fail: a bad module mapped to a package outside the registry ends the run
    with the [KeyError] of the lookup. *)
Example collect_key_error :
  collect_dependency_graph Example.tree 8 Example.root_dir [Example.main_py]
    [] Example.module_to_requirement
  = Raised (KeyError "pillow").
Proof. vm_compute. reflexivity. Qed.

Lemma badmodules_loop_requirements_Forall (E : Env)
    (requirements : OrderedDict.t Requirement.t)
    (module_to_requirement : OrderedDict.t string) (rel_pth : Path)
    (names : list string) :
  forall pkg uset acc',
    for_each (visit_badmodule E requirements module_to_requirement rel_pth)
      names (pkg, uset) = Ok acc' ->
    Forall (fun kr => OrderedDict.get requirements kr.1 = Some kr.2)
      (Package.requirements pkg) ->
    Forall (fun kr => OrderedDict.get requirements kr.1 = Some kr.2)
      (Package.requirements acc'.1).
Proof.
  induction names as [|n names IH]; intros pkg uset acc'.
  - by intros [= <-].
  - cbn [for_each].
    destruct (visit_badmodule _ _ _ _ _ n) as [[pkg1 uset1]|] eqn:Hstep; [|done].
    cbn [bind]. intros Hloop Hall. apply (IH _ _ _ Hloop). clear Hloop IH.
    unfold visit_badmodule in Hstep.
    destruct (OrderedDict.contains module_to_requirement n).
    + destruct (OrderedDict.getitem module_to_requirement n) as [req_name|]; [|done].
      cbn [bind] in Hstep. destruct (negb _); [|by injection Hstep as <- _].
      unfold OrderedDict.getitem in Hstep.
      destruct (OrderedDict.get requirements req_name) as [req|] eqn:Hreg; [|done].
      injection Hstep as <- _. cbn [Package.requirements].
      by apply OrderedDict_setitem_Forall.
    + repeat case_bool_decide; by injection Hstep as <- _.
Qed.

Lemma while_stack_requirements_Forall (E : Env) (root_dir : Path)
    (requirements : OrderedDict.t Requirement.t)
    (module_to_requirement : OrderedDict.t string) (fuel : nat) :
  forall st pkg,
    while_stack E root_dir requirements module_to_requirement fuel st
    = Returned pkg ->
    Forall (fun kr => OrderedDict.get requirements kr.1 = Some kr.2)
      (Package.requirements (package st)) ->
    Forall (fun kr => OrderedDict.get requirements kr.1 = Some kr.2)
      (Package.requirements pkg).
Proof.
  induction fuel as [|fuel IH]; intros st pkg; [done|]. cbn [while_stack].
  destruct (stack st) as [|rel_pth rest]; [by intros [= <-]|].
  destruct (loop_iteration _ _ _ _ _ _ _) as [st'|] eqn:Hstep; [|done].
  intros Hrun Hall. apply (IH _ _ Hrun).
  destruct (decide (rel_pth ∈ Package.rel_paths (package st))) as [Hold|Hnew].
  - by apply loop_iteration_revisit in Hstep as [_ ->].
  - destruct (loop_iteration_visit _ _ _ _ _ _ _ _ Hnew Hstep)
      as (mfder & [pkg1 uset1] & [pkg2 stk2] & _ & _ & H1 & H2 & _ & ->).
    cbn [package fst snd] in *.
    apply modules_loop_spec in H2 as (Hreq2 & _). cbn [fst] in Hreq2.
    rewrite Hreq2.
    by apply (badmodules_loop_requirements_Forall _ _ _ _ _ _ _ _ H1).
Qed.

Lemma parse_requirements_post_name (d : OrderedDict.t Requirement.t)
    (k : string) (r : Requirement.t) :
  parse_requirements_post d = true ->
  OrderedDict.get d k = Some r -> Requirement.name r = k.
Proof.
  unfold parse_requirements_post. induction d as [|[k0 r0] d IH]; [done|].
  cbn [forallb OrderedDict.get]. intros [Hname Hrest]%andb_true_iff.
  destruct (String.eqb k0 k) eqn:Hk.
  - intros [= <-]. apply String.eqb_eq in Hname, Hk. congruence.
  - by apply IH.
Qed.

(** X14: The postconditions that are only checked under [icontract.SLOW] hold
    for every returned package: it holds the initial paths, and, when the
    registry keeps each requirement under its name (as the result of
    [parse_requirements] does), the name of each of its requirements is in
    the registry. *)
Theorem collect_postconditions_hold (E : Env) (fuel : nat) (root_dir : Path)
    (rel_paths : list Path) (requirements : OrderedDict.t Requirement.t)
    (module_to_requirement : OrderedDict.t string) (pkg : Package.t) :
  collect_dependency_graph E fuel root_dir rel_paths requirements
    module_to_requirement = Returned pkg ->
  parse_requirements_post requirements = true ->
  (forall pth, pth ∈ rel_paths -> pth ∈ Package.rel_paths pkg)
  /\ forall req,
       req ∈ OrderedDict.values (Package.requirements pkg) ->
       OrderedDict.contains requirements (Requirement.name req) = true.
Proof.
  intros Hrun Hpost. split.
  - intros pth Hpth.
    destruct (collect_returns_inv _ _ _ _ _ _ _ Hrun)
      as (st & <- & Hstack & [Hpaths _ _ _ Hseeds _ _ _]).
    rewrite Hstack in Hseeds. apply Hpaths.
    by destruct (Hseeds pth Hpth) as [?|?%elem_of_nil].
  - unfold collect_dependency_graph in Hrun. destruct (negb _); [done|].
    apply while_stack_requirements_Forall in Hrun; [|by constructor].
    intros req Hreq. unfold OrderedDict.values in Hreq.
    apply list_elem_of_fmap in Hreq as ([k r] & -> & Hin).
    eapply Forall_forall in Hrun; [|done]. cbn [fst snd] in *.
    rewrite (parse_requirements_post_name _ _ _ Hpost Hrun).
    apply OrderedDict_contains_get. rewrite Hrun. by eexists.
Qed.

Lemma collect_postconditions_hold_witness :
  exists pkg,
    collect_dependency_graph Example.tree 8 Example.root_dir [Example.main_py]
      Example.requirements Example.module_to_requirement = Returned pkg
    /\ (forall pth, pth ∈ [Example.main_py] -> pth ∈ Package.rel_paths pkg)
    /\ forall req,
         req ∈ OrderedDict.values (Package.requirements pkg) ->
         OrderedDict.contains Example.requirements (Requirement.name req) = true.
Proof.
  eexists. split; [vm_compute; reflexivity|].
  apply (collect_postconditions_hold Example.tree 8 Example.root_dir
           [Example.main_py] Example.requirements Example.module_to_requirement).
  - vm_compute. reflexivity.
  - vm_compute. reflexivity.
Defined.

(** ** _format_table: tables that satisfy the precondition *)

Lemma string_length_app (s t : string) :
  String.length (s +:+ t) = String.length s + String.length t.
Proof. induction s as [|c s IH]; simpl; [done | by rewrite IH]. Qed.

Lemma string_length_repeat (c : string) (n : nat) :
  String.length (str_repeat c n) = n * String.length c.
Proof.
  induction n as [|n IH]; simpl; [done|]. by rewrite string_length_app, IH.
Qed.

Lemma string_length_ljust (cell : string) (width : nat) :
  String.length cell <= width -> String.length (ljust cell width) = width.
Proof.
  intros Hle. unfold ljust. rewrite string_length_app, string_length_repeat.
  simpl. lia.
Qed.

Lemma string_length_join (sep : string) (parts : list string) :
  String.length (join sep parts)
  = sum_list (String.length <$> parts) + String.length sep * (length parts - 1).
Proof.
  unfold join. induction parts as [|p parts IH].
  { cbn. by rewrite Nat.mul_0_r. }
  destruct parts as [|q parts].
  { cbn. rewrite Nat.mul_0_r. lia. }
  change (String.concat sep (p :: q :: parts))
    with (p +:+ sep +:+ String.concat sep (q :: parts)).
  rewrite !string_length_app, IH. cbn [fmap list_fmap sum_list length].
  rewrite !Nat.sub_succ, !Nat.sub_0_r, (Nat.mul_succ_r _ (length parts)).
  unfold id. lia.
Qed.

Lemma map_result_Forall2 {A B : Type} (f : A -> Result B) (l : list A) :
  (forall x, x ∈ l -> exists y, f x = Ok y) ->
  exists ys, map_result f l = Ok ys /\ Forall2 (fun x y => f x = Ok y) l ys.
Proof.
  induction l as [|x l IH]; intros Hf.
  - exists []. split; [done | constructor].
  - destruct (Hf x) as [y Hy]; [by left|].
    destruct IH as (ys & Hys & Hall); [intros z Hz; apply Hf; by right|].
    exists (y :: ys). cbn [map_result]. rewrite Hy, Hys. split; [done|].
    by constructor.
Qed.

(** The width of a column is the greatest length of its cells. *)
Lemma col_width_spec (table : list (list string)) (i : nat) :
  table <> [] ->
  (forall row, row ∈ table -> i < length row) ->
  exists w,
    col_width table i = Ok w
    /\ (forall row cell, row ∈ table -> row !! i = Some cell ->
          String.length cell <= w)
    /\ exists row cell, row ∈ table /\ row !! i = Some cell
         /\ String.length cell = w.
Proof.
  intros Hne Hrows. unfold col_width.
  destruct (map_result_Forall2
              (fun row => let* cell := list_getitem row i in Ok (String.length cell))
              table) as (lens & -> & Hlens).
  { intros row Hrow. unfold list_getitem.
    destruct (lookup_lt_is_Some_2 row i (Hrows row Hrow)) as [cell ->].
    by eexists. }
  cbn [bind].
  assert (Forall2 (fun row n => exists cell, row !! i = Some cell
                                  /\ String.length cell = n) table lens) as Hcells.
  { eapply Forall2_impl; [exact Hlens|]. intros row n. cbn beta.
    unfold list_getitem. destruct (row !! i) as [cell|]; [|done].
    cbn [bind]. intros [= <-]. by exists cell. }
  clear Hlens Hrows.
  destruct Hcells as [|row n table lens (cell & Hcell & Hn) Hcells]; [done|].
  clear Hne. exists (foldr Nat.max n lens). split; [done|]. split.
  - intros row' cell' [->|Hin]%elem_of_cons Hcell'.
    + assert (cell' = cell) as -> by congruence. subst n.
      clear. induction lens; simpl; lia.
    + clear Hcell Hn. induction Hcells as [|r m t ls (c & Hc & Hm) _ IH];
        [by apply elem_of_nil in Hin|].
      apply elem_of_cons in Hin as [->|Hin]; simpl.
      * assert (cell' = c) as -> by congruence. lia.
      * specialize (IH Hin). lia.
  - revert row n cell Hcell Hn.
    induction Hcells as [|r m t ls (c & Hc & Hm) _ IH]; intros row n cell Hcell Hn.
    + exists row, cell. split; [by left | done].
    + simpl. destruct (Nat.max_spec m (foldr Nat.max n ls)) as [[_ ->]|[_ ->]].
      * destruct (IH row n cell Hcell Hn) as (r' & c' & Hin & ? & ?).
        exists r', c'. split; [|done].
        apply elem_of_cons in Hin as [Heq|Hin]; [subst; by left | right; by right].
      * exists r, c. split; [right; by left | done].
Qed.

Lemma format_table_pre_rows (first : list string) (rest : list (list string)) :
  format_table_pre (first :: rest) = true ->
  Forall (fun row => length row = length first) (first :: rest).
Proof.
  unfold format_table_pre. intros Hall. apply Forall_forall. intros row Hrow.
  apply list_elem_of_In in Hrow.
  apply (proj1 (forallb_forall _ _) Hall) in Hrow. by apply Nat.eqb_eq.
Qed.

Lemma format_table_body_spec (first : list string) (rest : list (list string)) :
  Forall (fun row => length row = length first) (first :: rest) ->
  exists col_widths,
    _format_table_body (first :: rest)
    = Ok (join LF (format_lines 0 (first :: rest) col_widths))
    /\ length col_widths = length first
    /\ column_maxima (first :: rest) col_widths.
Proof.
  intros Hrows. unfold _format_table_body. cbn [list_getitem lookup list_lookup bind].
  assert (forall i, i < length first ->
            forall row, row ∈ first :: rest -> i < length row) as Hlt.
  { intros i Hi row Hrow. eapply Forall_forall in Hrows; [|done]. lia. }
  destruct (map_result_Forall2 (col_width (first :: rest)) (seq 0 (length first)))
    as (col_widths & -> & Hall).
  { intros i [_ Hi]%elem_of_seq.
    destruct (col_width_spec (first :: rest) i) as (w & Hw & _); [done| |by exists w].
    apply Hlt. lia. }
  exists col_widths. split; [done|].
  pose proof (Forall2_length _ _ _ Hall) as Hlen. rewrite length_seq in Hlen.
  split; [done|]. intros i w Hw.
  destruct (Forall2_lookup_r _ _ _ _ _ Hall Hw) as (j & Hj & Hcol).
  apply lookup_seq in Hj as [-> Hi]. cbn [Nat.add] in Hcol.
  destruct (col_width_spec (first :: rest) i) as (w' & Hw' & Hmax); [done| |].
  { by apply Hlt. }
  assert (w' = w) as -> by congruence. done.
Qed.

Lemma format_lines_length (rows : list (list string)) (col_widths : list nat) :
  forall i,
    length (format_lines i rows col_widths)
    = length rows + match rows with
                    | [] => 0
                    | _ => if i =? 0 then 1 else 0
                    end.
Proof.
  induction rows as [|row rows IH]; intros i; [done|].
  cbn [format_lines length]. rewrite length_app, IH.
  destruct (i =? 0); destruct rows; cbn [length Nat.eqb]; lia.
Qed.

Lemma format_row_length (col_widths : list nat) (row : list string) :
  Forall2 (fun cell w => String.length cell <= w) row col_widths ->
  String.length (format_row col_widths row)
  = sum_list col_widths + 3 * (length col_widths - 1).
Proof.
  intros Hrow. unfold format_row. rewrite string_length_join.
  assert (String.length
            <$> map (fun '(cell, width) => ljust cell width) (zip row col_widths)
          = col_widths) as Hlens.
  { induction Hrow as [|cell w row ws Hle _ IH]; [done|].
    cbn. rewrite string_length_ljust by done. f_equal. exact IH. }
  pose proof (f_equal length Hlens) as Hl. rewrite length_fmap in Hl.
  by rewrite Hlens, Hl.
Qed.

Lemma format_border_length (col_widths : list nat) :
  String.length (format_border col_widths)
  = sum_list col_widths + 3 * (length col_widths - 1).
Proof.
  unfold format_border. rewrite string_length_join, length_map.
  assert (String.length <$> map (str_repeat "-") col_widths = col_widths) as ->;
    [|done].
  induction col_widths as [|w ws IH]; [done|].
  cbn. rewrite string_length_repeat. cbn. rewrite Nat.mul_1_r. f_equal. exact IH.
Qed.

Lemma format_lines_widths (rows : list (list string)) (col_widths : list nat) :
  Forall (fun row => Forall2 (fun cell w => String.length cell <= w) row col_widths)
    rows ->
  forall i line,
    line ∈ format_lines i rows col_widths ->
    String.length line = sum_list col_widths + 3 * (length col_widths - 1).
Proof.
  induction 1 as [|row rows Hrow _ IH]; intros i line; [by intros ?%elem_of_nil|].
  cbn [format_lines]. intros [->|[Hline|Hline]%elem_of_app]%elem_of_cons.
  - by apply format_row_length.
  - destruct (i =? 0); [|by apply elem_of_nil in Hline].
    apply list_elem_of_singleton in Hline as ->. apply format_border_length.
  - by eapply IH.
Qed.

Lemma column_maxima_rows (table : list (list string)) (col_widths : list nat)
    (cols : nat) :
  Forall (fun row => length row = cols) table ->
  length col_widths = cols ->
  column_maxima table col_widths ->
  Forall (fun row => Forall2 (fun cell w => String.length cell <= w) row col_widths)
    table.
Proof.
  intros Hrows Hlen Hmax. apply Forall_forall. intros row Hrow.
  apply Forall2_same_length_lookup_2.
  - eapply Forall_forall in Hrows; [|done]. lia.
  - intros i cell w Hcell Hw. destruct (Hmax i w Hw) as [Hle _]. by eapply Hle.
Qed.

(** X15: A table with at least one row whose rows all have as many cells as the
    first one never makes [_format_table] fail on an index: the widths of the
    columns are the greatest lengths of their cells, and the call returns the
    lines joined by line feeds, unless that text ends with a line feed, which
    the second postcondition refuses. *)
Theorem format_table_rectangular (first : list string) (rest : list (list string)) :
  format_table_pre (first :: rest) = true ->
  exists col_widths,
    length col_widths = length first
    /\ column_maxima (first :: rest) col_widths
    /\ _format_table (first :: rest)
       = if endswith (join LF (format_lines 0 (first :: rest) col_widths)) LF
         then Raise ViolationError
         else Ok (join LF (format_lines 0 (first :: rest) col_widths)).
Proof.
  intros Hpre.
  destruct (format_table_body_spec first rest (format_table_pre_rows _ _ Hpre))
    as (col_widths & Hbody & Hlen & Hmax).
  exists col_widths. split; [done|]. split; [done|].
  unfold _format_table. rewrite Hpre, Hbody. done.
Qed.

Lemma format_table_rectangular_witness :
  exists col_widths,
    length col_widths = 2
    /\ column_maxima [["Module"; "Imported from"]; ["missing"; "main.py"]] col_widths
    /\ _format_table [["Module"; "Imported from"]; ["missing"; "main.py"]]
       = if endswith
              (join LF (format_lines 0
                          [["Module"; "Imported from"]; ["missing"; "main.py"]]
                          col_widths)) LF
         then Raise ViolationError
         else Ok (join LF (format_lines 0
                             [["Module"; "Imported from"]; ["missing"; "main.py"]]
                             col_widths)).
Proof.
  apply (format_table_rectangular ["Module"; "Imported from"]
           [["missing"; "main.py"]]).
  vm_compute. reflexivity.
Defined.

(** X16: Whenever [_format_table] returns, the text is one line per row and the
    rule under the first row, joined by line feeds, and all these lines have
    the same length: the widths of the columns and three characters between
    neighbouring columns. *)
Theorem format_table_lines (table : list (list string)) (result : string) :
  _format_table table = Ok result ->
  exists col_widths lines,
    result = join LF lines
    /\ length lines = S (length table)
    /\ column_maxima table col_widths
    /\ forall line,
         line ∈ lines ->
         String.length line = sum_list col_widths + 3 * (length col_widths - 1).
Proof.
  unfold _format_table. destruct (format_table_pre table) eqn:Hpre; [|done].
  cbn [negb]. destruct table as [|first rest]; [done|].
  pose proof (format_table_pre_rows _ _ Hpre) as Hrows.
  destruct (format_table_body_spec first rest Hrows)
    as (col_widths & -> & Hlen & Hmax).
  cbn [bind format_table_post_empty negb]. destruct (endswith _ LF); [done|].
  intros [= <-]. exists col_widths, (format_lines 0 (first :: rest) col_widths).
  split; [done|]. split; [|split; [done|]].
  - rewrite format_lines_length. cbn [length Nat.eqb]. lia.
  - intros line Hline. eapply format_lines_widths; [|done].
    by eapply column_maxima_rows.
Qed.

Lemma format_table_lines_witness :
  exists col_widths lines,
    "Module  | Imported from" +:+ LF +:+ "--------+--------------" +:+ LF
      +:+ "missing | main.py      " = join LF lines
    /\ length lines = 3
    /\ column_maxima [["Module"; "Imported from"]; ["missing"; "main.py"]] col_widths
    /\ forall line,
         line ∈ lines ->
         String.length line = sum_list col_widths + 3 * (length col_widths - 1).
Proof.
  apply (format_table_lines [["Module"; "Imported from"]; ["missing"; "main.py"]]).
  vm_compute. reflexivity.
Defined.

(** ** Rendering *)

Lemma insert_by_Permutation {A : Type} (leb : A -> A -> bool) (x : A) (l : list A) :
  insert_by leb x l ≡ₚ x :: l.
Proof.
  induction l as [|y l IH]; cbn [insert_by]; [done|].
  destruct (leb y x); [|done]. rewrite IH. apply Permutation_swap.
Qed.

Lemma sorted_by_Permutation {A : Type} (leb : A -> A -> bool) (l : list A) :
  sorted_by leb l ≡ₚ l.
Proof.
  assert (forall k, foldr (insert_by leb) [] k ≡ₚ k) as Hfold.
  { induction k as [|x k IH]; cbn [foldr]; [done|].
    by rewrite insert_by_Permutation, IH. }
  unfold sorted_by. rewrite Hfold. symmetry. apply Permutation_rev.
Qed.

Lemma insert_by_Sorted {A : Type} (leb : A -> A -> bool) (x : A) (l : list A) :
  (forall a b, leb a b = true \/ leb b a = true) ->
  Sorted (fun a b => leb a b = true) l ->
  Sorted (fun a b => leb a b = true) (insert_by leb x l).
Proof.
  intros Htotal. induction 1 as [|y l Hsorted IH Hhd]; cbn [insert_by].
  - by repeat constructor.
  - destruct (leb y x) eqn:Hyx.
    + constructor; [done|]. destruct Hhd as [|z l Hyz]; cbn [insert_by].
      * by constructor.
      * destruct (leb z x); by constructor.
    + constructor; [by constructor|]. constructor.
      destruct (Htotal x y); [done | congruence].
Qed.

Lemma sorted_by_Sorted {A : Type} (leb : A -> A -> bool) (l : list A) :
  (forall a b, leb a b = true \/ leb b a = true) ->
  Sorted (fun a b => leb a b = true) (sorted_by leb l).
Proof.
  intros Htotal. unfold sorted_by.
  induction (rev l) as [|x k IH]; cbn [foldr]; [constructor|].
  by apply insert_by_Sorted.
Qed.

(** X17: The mapping of a package lists the paths of the package as sorted
    strings, each path once, and its requirements by sorted name, whatever
    the order of the set and of the dictionary is; the unresolved modules
    keep the order of the list. *)
Theorem Package_to_mapping_sorted (self : Package.t) :
  exists items paths,
    Package_to_mapping self
    = VMap [("requirements",
             VMap ((fun kr => (kr.1, Requirement_to_mapping kr.2)) <$> items));
            ("rel_paths", VList (VStr <$> paths));
            ("unresolved_modules",
             VList (UnresolvedModule_to_mapping
                      <$> Package.unresolved_modules self))]
    /\ Sorted (fun a b => String.leb a.1 b.1 = true) items
    /\ items ≡ₚ Package.requirements self
    /\ Sorted (fun a b => String.leb a b = true) paths
    /\ paths ≡ₚ as_posix <$> elements (Package.rel_paths self)
    /\ forall p, as_posix p ∈ paths <-> exists q, q ∈ Package.rel_paths self
                                          /\ as_posix q = as_posix p.
Proof.
  exists (sorted_by key_leb (Package.requirements self)),
         (sorted_by String.leb (as_posix <$> elements (Package.rel_paths self))).
  split; [done|]. split.
  { apply (sorted_by_Sorted (@key_leb Requirement.t)).
    intros a b. apply String.leb_total. }
  split; [apply sorted_by_Permutation|]. split.
  { apply sorted_by_Sorted, String.leb_total. }
  split; [apply sorted_by_Permutation|].
  intros p. rewrite sorted_by_Permutation, list_elem_of_fmap.
  split; intros (q & Hq & Hin); exists q; by rewrite ?elem_of_elements in *.
Qed.

Lemma format_table_outcome (first : list string) (rest : list (list string)) :
  format_table_pre (first :: rest) = true ->
  (exists text, _format_table (first :: rest) = Ok text)
  \/ _format_table (first :: rest) = Raise ViolationError.
Proof.
  intros Hpre.
  destruct (format_table_body_spec first rest (format_table_pre_rows _ _ Hpre))
    as (col_widths & Hbody & _).
  unfold _format_table. rewrite Hpre, Hbody. cbn [negb bind format_table_post_empty].
  destruct (endswith _ LF); [by right | left; by eexists].
Qed.

Lemma two_columns_pre {A : Type} (header : list string) (f : A -> list string)
    (l : list A) :
  length header = 2 -> (forall x, length (f x) = 2) ->
  format_table_pre (header :: (f <$> l)) = true.
Proof.
  intros Hh Hf. cbn [format_table_pre forallb]. rewrite Nat.eqb_refl. cbn [andb].
  apply forallb_forall. intros row Hrow%list_elem_of_In.
  apply list_elem_of_fmap in Hrow as (x & -> & _). rewrite Hf, Hh. done.
Qed.

Lemma format_table_by_body (first : list string) (rest : list (list string))
    (text : string) :
  format_table_pre (first :: rest) = true ->
  _format_table_body (first :: rest) = Ok text ->
  _format_table (first :: rest)
  = if endswith text LF then Raise ViolationError else Ok text.
Proof.
  intros Hpre Hbody. unfold _format_table. rewrite Hpre, Hbody.
  cbn [negb bind format_table_post_empty]. by destruct (endswith text LF).
Qed.

Lemma two_columns_body {A : Type} (header : list string) (f : A -> list string)
    (l : list A) :
  length header = 2 -> (forall x, length (f x) = 2) ->
  exists text, _format_table_body (header :: (f <$> l)) = Ok text.
Proof.
  intros Hh Hf.
  destruct (format_table_body_spec header (f <$> l)) as (col_widths & Hbody & _).
  - apply format_table_pre_rows. by apply two_columns_pre.
  - by eexists.
Qed.

(** X18: the two tables of [_output_verbose] satisfy the precondition of
    [_format_table], and its body formats them without an error: every row
    has two cells. So [_output_verbose] raises only when the text of a table
    it renders ends with a line feed, which the second postcondition of
    [_format_table] refuses; then nothing is written. Otherwise it writes a
    text that ends with a line feed. For the empty package it writes a
    single line feed. *)
Theorem output_verbose_outcome (E : Env) (package : Package.t) :
  exists table1 table2,
    format_table_pre (requirements_table E package) = true
    /\ _format_table_body (requirements_table E package) = Ok table1
    /\ format_table_pre (unresolved_table package) = true
    /\ _format_table_body (unresolved_table package) = Ok table2
    /\ (if (nonempty (Package.requirements package) && endswith table1 LF)
           || (nonempty (Package.unresolved_modules package) && endswith table2 LF)
        then _output_verbose E package = Raise ViolationError
        else exists text, _output_verbose E package = Ok (text +:+ LF))
    /\ _output_verbose E Package.init = Ok LF.
Proof.
  assert (format_table_pre (requirements_table E package) = true) as Hpre1
    by (by apply two_columns_pre).
  assert (format_table_pre (unresolved_table package) = true) as Hpre2
    by (by apply two_columns_pre).
  assert (exists table1, _format_table_body (requirements_table E package)
                         = Ok table1) as [table1 Hbody1]
    by (by apply two_columns_body).
  assert (exists table2, _format_table_body (unresolved_table package)
                         = Ok table2) as [table2 Hbody2]
    by (by apply two_columns_body).
  exists table1, table2. do 4 (split; [done|]). split; [|done].
  pose proof (format_table_by_body _ _ _ Hpre1 Hbody1) as Hfmt1.
  pose proof (format_table_by_body _ _ _ Hpre2 Hbody2) as Hfmt2.
  unfold _output_verbose.
  change (_format_table
            (["Package name"; "Requirement spec"]
               :: ((fun kr => [Requirement.name kr.2;
                               repr_str E (strip (Requirement.line kr.2))])
                     <$> sorted_by key_leb (Package.requirements package))))
    with (_format_table (requirements_table E package)) in Hfmt1.
  change (_format_table
            (["Module"; "Imported from"]
               :: ((fun m => [UnresolvedModule.name m;
                              as_posix (UnresolvedModule.imported_from m)])
                     <$> sorted_by (fun a b => String.leb (UnresolvedModule.name a)
                                                 (UnresolvedModule.name b))
                           (Package.unresolved_modules package))))
    with (_format_table (unresolved_table package)) in Hfmt2.
  rewrite Hfmt1, Hfmt2. clear.
  destruct (Package.requirements package) as [|r rs];
    destruct (Package.unresolved_modules package) as [|u us];
    cbn [nonempty andb orb bind].
  - by eexists.
  - destruct (endswith table2 LF); cbn [bind]; [done | by eexists].
  - destruct (endswith table1 LF); cbn [bind]; [done | by eexists].
  - destruct (endswith table1 LF); cbn [bind orb]; [done|].
    destruct (endswith table2 LF); cbn [bind]; [done | by eexists].
Qed.

(** The package of the unit test is rendered as the test expects. *)
Example output_verbose_golden :
  _output_verbose Example.tree
    {| Package.requirements :=
         [("pillow", Requirement.init "pillow" "pillow==5.2.0")];
       Package.rel_paths := {[ ["something_local.py"]; ["some_script.py"] ]};
       Package.unresolved_modules :=
         [unresolved_from ["some_script.py"] "something_missing"] |}
  = Ok ("External dependencies:" +:+ LF
        +:+ "Package name | Requirement spec" +:+ LF
        +:+ "-------------+-----------------" +:+ LF
        +:+ "pillow       | 'pillow==5.2.0' " +:+ LF
        +:+ LF
        +:+ "Local dependencies:" +:+ LF
        +:+ "some_script.py" +:+ LF
        +:+ "something_local.py" +:+ LF
        +:+ LF
        +:+ "Unresolved dependencies:" +:+ LF
        +:+ "Module            | Imported from " +:+ LF
        +:+ "------------------+---------------" +:+ LF
        +:+ "something_missing | some_script.py" +:+ LF).
Proof. vm_compute. reflexivity. Qed.

(** X19: [output] writes only for the formats [verbose] and [json]: any other
    string is refused by the precondition, and [None], which the
    precondition lets pass, raises a [ValueError]; the default documented for
    an unset format is not chosen. *)
Theorem output_formats (E : Env) (json_dump : value -> string)
    (package : Package.t) (a_format : option string) :
  match a_format with
  | Some f =>
      if decide (f = "verbose")
      then output E json_dump package a_format = _output_verbose E package
      else if decide (f = "json")
      then output E json_dump package a_format
           = Ok (json_dump (Package_to_mapping package))
      else output E json_dump package a_format = Raise ViolationError
  | None =>
      output E json_dump package a_format
      = Raise (ValueError "Unexpected format: None")
  end.
Proof.
  destruct a_format as [f|]; [|done]. unfold output, FORMATS.
  destruct (decide (f = "verbose")) as [->|Hv]; [done|].
  destruct (decide (f = "json")) as [->|Hj]; [done|].
  rewrite bool_decide_eq_false_2; [done|].
  intros [?|[?|?%elem_of_nil]%elem_of_cons]%elem_of_cons; done.
Qed.
